(** * potency: idempotency-key request deduplication for net/http

    A shallow embedding of the Go package [potency] (the dispatcher
    [Potency.ServeHTTP] / [Potency.serveHTTP], its result cache with the
    age-ordered chain, the in-progress set, and the two interceptors
    [bodyIntercept] and [responseWriterIntercept]), followed by the
    properties established about it.

    Conventions of the embedding:
    - Go strings are [string], byte slices are [list byte], [int] and
      [time.Duration] values are [Z], a [time.Time] is the number of
      nanoseconds since a fixed epoch, as a [Z].
    - Go interfaces ([io.ReadCloser], [http.ResponseWriter]) are type
      classes; the interceptors are instances built over an arbitrary
      instance, as in the source.
    - [*savedResult] pointers are addresses into an explicit store of
      [savedResult] objects, so that the chain links and the pointers
      [cacheOldest] / [cacheNewest] alias exactly as they do in Go.
    - Library functions the package calls but does not define
      ([sha256.Sum256], [textproto.CanonicalMIMEHeaderKey],
      [jsrest.WriteError]) are the methods of two classes; what is
      proved holds for every instance. *)

From Stdlib Require Import ZArith Lia List String Ascii.
From Stdlib.Strings Require Import Byte.
From stdpp Require Import gmap strings list fin_maps.

(** ** Bytes, errors, headers *)

Abbreviation bytes := (list byte).

#[global] Instance byte_eq_decision : EqDecision byte := byte_eq_dec.

(** Errors produced by readers and writers of the environment. [EOF] is
    [io.EOF]; every other error value is opaque. *)
Inductive goerror :=
| EOF
| IOFailure (msg : string).

#[global] Instance goerror_eq_decision : EqDecision goerror.
Proof. solve_decision. Defined.

(** [http.Header] is [map[string][]string]. *)
Abbreviation HttpHeader := (gmap string (list string)).

(** The double-quote character (code 34), and the one-character string made of it. *)
Definition dquote : ascii := "034"%char.
Definition dquoteStr : string := String dquote EmptyString.

(** [strings.HasPrefix] and [strings.HasSuffix]:
    [len(s) >= len(prefix) && s[0:len(prefix)] == prefix] and
    [len(s) >= len(suffix) && s[len(s)-len(suffix):] == suffix]. *)
Definition HasPrefix (s prefix : string) : bool :=
  (String.length prefix <=? String.length s)%nat
  && String.eqb (substring 0 (String.length prefix) s) prefix.
Definition HasSuffix (s suffix : string) : bool :=
  (String.length suffix <=? String.length s)%nat
  && String.eqb
       (substring (String.length s - String.length suffix)
          (String.length suffix) s)
       suffix.

(** ** The interfaces of the environment *)

(** Result of [Read(p)]: the contents of [p] after the call, the byte
    count and the error. *)
Record readResult := mkReadResult {
  rr_p : bytes;
  rr_n : Z;
  rr_err : option goerror
}.

(** [io.ReadCloser]. [None] as the result of [rc_Read] stands for a call
    that panics. [rc_methods] is the method set of the type behind the
    interface value, which a type assertion on the value consults. *)
Class ReadCloser (S : Type) := {
  rc_Read : S -> bytes -> option (S * readResult);
  rc_Close : S -> S * option goerror;
  rc_methods : list string
}.

(** [http.ResponseWriter]. [Header()] returns the live header map of the
    writer; [rw_mutateHeader f] is an in-place update of that map, and
    the law says that the map is a reference: what is stored is what is
    read back. [rw_methods] is the method set of the type behind the
    interface value. *)
Class ResponseWriter (W : Type) := {
  rw_Header : W -> HttpHeader;
  rw_mutateHeader : (HttpHeader -> HttpHeader) -> W -> W;
  rw_Write : W -> bytes -> W * (Z * option goerror);
  rw_WriteHeader : W -> Z -> W;
  rw_methods : list string;
  rw_Header_mutate : forall f w, rw_Header (rw_mutateHeader f w) = f (rw_Header w)
}.

(** A type assertion [v.(I)] to an interface [I], given by the names of
    its methods, succeeds when the type behind [v] has all of them. *)
Definition implements (methods iface : list string) : bool :=
  forallb (fun m => bool_decide (m ∈ methods)) iface.

(** ** hash.Hash as returned by sha256.New *)

(** The state of a running hash is the sequence of bytes written to it so
    far; [Sum(nil)] is the digest of that sequence. *)
Record hashState := mkHash { written : bytes }.

Definition sha256_New : hashState := mkHash [].
Definition hash_Write (h : hashState) (p : bytes) : hashState :=
  mkHash (written h ++ p).

(** ** responsewriterintercept.go *)

Record responseWriterIntercept (W : Type) := mkRWI {
  rwi_dest : W;
  rwi_buf : bytes;
  rwi_statusCode : Z
}.
Arguments mkRWI {W} _ _ _.
Arguments rwi_dest {W} _.
Arguments rwi_buf {W} _.
Arguments rwi_statusCode {W} _.

Definition StatusOK : Z := 200.

Section ResponseTap.
Context {W : Type} `{!ResponseWriter W}.

Definition newResponseWriterIntercept (dest : W) : responseWriterIntercept W :=
  mkRWI dest [] StatusOK.

Definition rwi_Header (rwi : responseWriterIntercept W) : HttpHeader :=
  rw_Header (rwi_dest rwi).

(** Mutating the map returned by [rwi.Header()] mutates the map of
    [dest], because [Header] hands out the map of [dest] itself. *)
Definition rwi_mutateHeader (f : HttpHeader -> HttpHeader)
    (rwi : responseWriterIntercept W) : responseWriterIntercept W :=
  mkRWI (rw_mutateHeader f (rwi_dest rwi)) (rwi_buf rwi) (rwi_statusCode rwi).

Definition rwi_Write (rwi : responseWriterIntercept W) (data : bytes)
    : responseWriterIntercept W * (Z * option goerror) :=
  let buf' := rwi_buf rwi ++ data in
  let '(dest', res) := rw_Write (rwi_dest rwi) data in
  (mkRWI dest' buf' (rwi_statusCode rwi), res).

Definition rwi_WriteHeader (rwi : responseWriterIntercept W) (statusCode : Z)
    : responseWriterIntercept W :=
  mkRWI (rw_WriteHeader (rwi_dest rwi) statusCode) (rwi_buf rwi) statusCode.

(** [dest] is a named field, not an embedded one: the methods of the
    interceptor are the three above, whatever else [dest] has. *)
Definition responseWriterIntercept_methods : list string :=
  ["Header"; "Write"; "WriteHeader"]%string.

#[global] Instance rwi_ResponseWriter
    : ResponseWriter (responseWriterIntercept W) := {|
  rw_Header := rwi_Header;
  rw_mutateHeader := rwi_mutateHeader;
  rw_Write := rwi_Write;
  rw_WriteHeader := rwi_WriteHeader;
  rw_methods := responseWriterIntercept_methods;
  rw_Header_mutate := fun f rwi => rw_Header_mutate f (rwi_dest rwi)
|}.
End ResponseTap.

Record bodyIntercept (S : Type) := mkBI {
bi_source : S;
bi_sha256 : hashState
}.
Arguments mkBI {S} _ _.
Arguments bi_source {S} _.
Arguments bi_sha256 {S} _.

(** The slice expression [p[:n]]. The buffer is taken at its full
  capacity, so the expression panics ([None]) outside [0 <= n <= len(p)]. *)
Definition slice_to (p : bytes) (n : Z) : option bytes :=
if ((0 <=? n) && (n <=? Z.of_nat (length p)))%Z
then Some (take (Z.to_nat n) p)
else None.

Section BodyTap.
Context {S : Type} `{!ReadCloser S}.

Definition newBodyIntercept (source : S) : bodyIntercept S :=
  mkBI source sha256_New.

Definition bi_Read (bi : bodyIntercept S) (p : bytes)
    : option (bodyIntercept S * readResult) :=
  match rc_Read (bi_source bi) p with
  | None => None
  | Some (source', r) =>
      match slice_to (rr_p r) (rr_n r) with
      | None => None
      | Some consumed =>
          Some (mkBI source' (hash_Write (bi_sha256 bi) consumed), r)
      end
  end.

Definition bi_Close (bi : bodyIntercept S) : bodyIntercept S * option goerror :=
  let '(source', err) := rc_Close (bi_source bi) in
  (mkBI source' (bi_sha256 bi), err).

(** [source] is a named field as well. *)
Definition bodyIntercept_methods : list string := ["Read"; "Close"]%string.

#[global] Instance bi_ReadCloser : ReadCloser (bodyIntercept S) := {|
  rc_Read := bi_Read;
  rc_Close := bi_Close;
  rc_methods := bodyIntercept_methods
|}.
End BodyTap.

(** ** The wrapped handler *)

(** A handler is an opaque unit of work that talks to its request body and
    its response writer. It is represented by the tree of the calls it
    makes, each continuation receiving what the call returned. A handler
    leaves the request itself alone, as [http.Handler] demands.
    [HAssertWriter I k] is the type assertion [_, ok := w.(I)] on the
    writer and [HAssertBody I k] the assertion [_, ok := r.Body.(I)], for
    an interface [I] given by the names of its methods (as
    [http.Flusher] by Flush); [k] receives [ok]. *)
Inductive handlerProg :=
| HReturn
| HPanic
| HRead (p : bytes) (k : readResult -> handlerProg)
| HClose (k : option goerror -> handlerProg)
| HGetHeader (k : HttpHeader -> handlerProg)
| HMutateHeader (f : HttpHeader -> HttpHeader) (k : handlerProg)
| HWriteHeader (statusCode : Z) (k : handlerProg)
| HWrite (data : bytes) (k : Z * option goerror -> handlerProg)
| HAssertWriter (iface : list string) (k : bool -> handlerProg)
| HAssertBody (iface : list string) (k : bool -> handlerProg).

(** [http.Handler]: the calls made for a request with the given method,
    URL and header. *)
Definition Handler := string -> string -> HttpHeader -> handlerProg.

Inductive handlerExit := Returns | Panics.

(** Running a handler against any response writer and any body. *)
Fixpoint runHandler {W S : Type} `{!ResponseWriter W} `{!ReadCloser S}
    (h : handlerProg) (w : W) (b : S) : handlerExit * W * S :=
  match h with
  | HReturn => (Returns, w, b)
  | HPanic => (Panics, w, b)
  | HRead p k =>
      match rc_Read b p with
      | None => (Panics, w, b)
      | Some (b', r) => runHandler (k r) w b'
      end
  | HClose k =>
      let '(b', err) := rc_Close b in runHandler (k err) w b'
  | HGetHeader k => runHandler (k (rw_Header w)) w b
  | HMutateHeader f k => runHandler k (rw_mutateHeader f w) b
  | HWriteHeader statusCode k => runHandler k (rw_WriteHeader w statusCode) b
  | HWrite data k =>
      let '(w', res) := rw_Write w data in runHandler (k res) w' b
  | HAssertWriter iface k =>
      runHandler (k (implements (rw_methods (W:=W)) iface)) w b
  | HAssertBody iface k =>
      runHandler (k (implements (rc_methods (S:=S)) iface)) w b
  end.

(** The handlers that reach their writer and their body through the
    methods of [http.ResponseWriter] and [io.ReadCloser] only: they make
    no type assertion on either. *)
Fixpoint assertsNothing (h : handlerProg) : Prop :=
  match h with
  | HReturn | HPanic => True
  | HRead _ k => forall r, assertsNothing (k r)
  | HClose k => forall err, assertsNothing (k err)
  | HGetHeader k => forall hd, assertsNothing (k hd)
  | HMutateHeader _ k | HWriteHeader _ k => assertsNothing k
  | HWrite _ k => forall res, assertsNothing (k res)
  | HAssertWriter _ _ | HAssertBody _ _ => False
  end.

(** ** The request body supplied by the server *)

(** A request body is a finite stream: the chunks in which the transport
    delivers it, each possibly accompanied by an error, and [io.EOF] once
    they are used up. *)
Abbreviation body := (list (bytes * option goerror)).

Definition body_Read (b : body) (p : bytes) : body * readResult :=
  match b with
  | [] => ([], mkReadResult p 0 (Some EOF))
  | (c, e) :: rest =>
      if (length c <=? length p)%nat
      then (rest, mkReadResult (c ++ drop (length c) p) (Z.of_nat (length c)) e)
      else ((drop (length p) c, e) :: rest,
            mkReadResult (take (length p) c) (Z.of_nat (length p)) None)
  end.

Definition body_Close (b : body) : body * option goerror := (b, None).

#[global] Instance body_ReadCloser : ReadCloser body := {|
  rc_Read := fun b p => Some (body_Read b p);
  rc_Close := body_Close;
  rc_methods := ["Read"; "Close"]%string
|}.

(** [io.Copy(h, body)]: everything the body delivers is written to [h],
    until [io.EOF] (no error) or the first other error (returned). *)
Fixpoint io_Copy (h : hashState) (b : body) : hashState * body * option goerror :=
  match b with
  | [] => (h, [], None)
  | (c, e) :: rest =>
      let h' := hash_Write h c in
      match e with
      | None => io_Copy h' rest
      | Some EOF => (h', rest, None)
      | Some err => (h', rest, Some err)
      end
  end.

(** The loop by which [io.Copy] does this, with a buffer of [size]
    bytes: read, write what was read, stop at the first error. [fuel]
    bounds the number of reads. *)
Fixpoint copyLoop (fuel size : nat) (h : hashState) (b : body)
    : option (hashState * body * option goerror) :=
  match fuel with
  | O => None
  | Datatypes.S fuel' =>
      let '(b', r) := body_Read b (repeat x00 size) in
      let h' :=
        if (0 <? rr_n r)%Z
        then hash_Write h (take (Z.to_nat (rr_n r)) (rr_p r))
        else h in
      match rr_err r with
      | None => copyLoop fuel' size h' b'
      | Some EOF => Some (h', b', None)
      | Some err => Some (h', b', Some err)
      end
  end.

(** ** potency.go: the data *)

(** A [*savedResult]: the address of an object in the store; a nil
    pointer is [None]. *)
Abbreviation addr := nat.

Record savedResult := mkSaved {
  sr_key : string;
  sr_method : string;
  sr_url : string;
  sr_requestHeader : HttpHeader;
  sr_sha256 : bytes;
  sr_statusCode : Z;
  sr_responseHeader : HttpHeader;
  sr_responseBody : bytes;
  sr_added : Z;
  sr_newer : option addr
}.

(** The assignments [sr.added = t] and [sr.newer = n]. *)
Definition set_added (t : Z) (sr : savedResult) : savedResult :=
  mkSaved (sr_key sr) (sr_method sr) (sr_url sr) (sr_requestHeader sr)
    (sr_sha256 sr) (sr_statusCode sr) (sr_responseHeader sr)
    (sr_responseBody sr) t (sr_newer sr).

Definition set_newer (n : option addr) (sr : savedResult) : savedResult :=
  mkSaved (sr_key sr) (sr_method sr) (sr_url sr) (sr_requestHeader sr)
    (sr_sha256 sr) (sr_statusCode sr) (sr_responseHeader sr)
    (sr_responseBody sr) (sr_added sr) n.

(** The [Potency] struct, without its two mutexes, together with the
    store of the [savedResult] objects allocated so far ([store]): the
    map and the chain pointers hold addresses into it. *)
Record Potency := mkPotency {
  handler : Handler;
  lifetime : Z;
  store : list savedResult;
  cache : gmap string addr;
  cacheOldest : option addr;
  cacheNewest : option addr;
  inProgress : gmap string bool
}.

(** The error returned by [lockKey]. *)
Inductive lockError := ErrConflict.

(** The errors [serveHTTP] returns, one constructor per [jsrest.Errorf]
    call, carrying the values formatted into the message. [Conflict] is
    of class [jsrest.ErrConflict], all others of [jsrest.ErrBadRequest]. *)
Inductive error :=
| InvalidKey (val : string)
| MethodMismatch (method : string)
| URLMismatch (url : string)
| HeaderMismatch (name value : string)
| HashBodyFailed (cause : goerror)
| BodyMismatch (got want : bytes)
| Conflict (key : string).

Definition criticalHeaders : list string := ["Accept"; "Authorization"]%string.

Definition hour : Z := 3600 * 1000000000.

Definition NewPotency (handler : Handler) : Potency :=
  mkPotency handler (6 * hour) [] ∅ None None ∅.

Definition SetLifetime (p : Potency) (lifetime : Z) : Potency :=
  mkPotency (handler p) lifetime (store p) (cache p) (cacheOldest p)
    (cacheNewest p) (inProgress p).

Definition NumCached (p : Potency) : nat := size (cache p).

(** ** potency.go: the in-progress set *)

Definition lockKey (p : Potency) (key : string) : Potency * option lockError :=
  if default false (inProgress p !! key)
  then (p, Some ErrConflict)
  else (mkPotency (handler p) (lifetime p) (store p) (cache p) (cacheOldest p)
          (cacheNewest p) (<[key := true]> (inProgress p)), None).

Definition unlockKey (p : Potency) (key : string) : Potency :=
  mkPotency (handler p) (lifetime p) (store p) (cache p) (cacheOldest p)
    (cacheNewest p) (delete key (inProgress p)).

(** ** potency.go: the result cache *)

Definition read (p : Potency) (key : string) : option addr := cache p !! key.

(** [time.Duration] is an [int64]: the product [-1 * p.lifetime] wraps. *)
Definition wrap64 (z : Z) : Z := ((z + 2 ^ 63) mod 2 ^ 64 - 2 ^ 63)%Z.

(** [time.Now().Add(-1 * p.lifetime)] at the instant [now]. *)
Definition cutoffAt (now lifetime : Z) : Z := (now + wrap64 (-1 * lifetime))%Z.

(** One step of the loop body of [removeExpired] at [iter]. *)
Definition expire (a : addr) (it : savedResult) (p : Potency) : Potency :=
  mkPotency (handler p) (lifetime p) (store p) (delete (sr_key it) (cache p))
    (Some a) (cacheNewest p) (inProgress p).

(** The loop of [removeExpired]. [fuel] bounds the number of iterations;
    [None] is a loop still running when the fuel is spent, or a pointer
    that is neither nil nor the address of an object. *)
Fixpoint removeExpired_loop (fuel : nat) (cutoff : Z) (iter : option addr)
    (p : Potency) {struct fuel} : option Potency :=
  match iter with
  | None => Some p
  | Some a =>
      match store p !! a with
      | None => None
      | Some it =>
          if (sr_added it <? cutoff)%Z
          then match fuel with
               | O => None
               | S fuel' =>
                   removeExpired_loop fuel' cutoff (sr_newer it) (expire a it p)
               end
          else Some p
      end
  end.

Definition removeExpired (now : Z) (p : Potency) : option Potency :=
  removeExpired_loop (length (store p)) (cutoffAt now (lifetime p))
    (cacheOldest p) p.

(** The part of [write] before the sweep: [sr.added], the map entry, the
    link from the newest object and the two chain pointers. *)
Definition write_insert (now : Z) (p : Potency) (sr : addr) (obj : savedResult)
    : Potency :=
  let store1 := alter (set_added now) sr (store p) in
  let cache1 := <[sr_key obj := sr]> (cache p) in
  let store2 :=
    match cacheNewest p with
    | Some nw => alter (set_newer (Some sr)) nw store1
    | None => store1
    end in
  let oldest :=
    match cacheOldest p with
    | None => Some sr
    | Some o => Some o
    end in
  mkPotency (handler p) (lifetime p) store2 cache1 oldest (Some sr) (inProgress p).

(** [write(sr)]; [nowAdded] and [nowSweep] are the two readings of
    [time.Now()], the first in [write], the second in [removeExpired]. *)
Definition write (nowAdded nowSweep : Z) (p : Potency) (sr : addr)
    : option Potency :=
  match store p !! sr with
  | None => None
  | Some obj => removeExpired nowSweep (write_insert nowAdded p sr obj)
  end.

(** [&savedResult{...}]: a new object in the store, and its address. *)
Definition alloc (p : Potency) (obj : savedResult) : Potency * addr :=
  (mkPotency (handler p) (lifetime p) (store p ++ [obj]) (cache p)
     (cacheOldest p) (cacheNewest p) (inProgress p),
   length (store p)).

(** ** potency.go: the dispatcher *)

Record Request := mkRequest {
  Method : string;
  URL : string;
  Header : HttpHeader;
  Body : body
}.

(** The two readings of the clock a request may take. *)
Record clock := mkClock { now_write : Z; now_sweep : Z }.

(** How a call ends: it returns (with an error or nil), it is left by a
    panic, or it never returns. *)
Inductive completion :=
| Done (err : option error)
| Panicked
| Hung.

(** What a call leaves behind: the way it ended, the [Potency], the
    response writer of the caller, what is left of the request body, and
    how many times the wrapped handler was invoked. *)
Record outcome (W : Type) := mkOutcome {
  how : completion;
  after : Potency;
  sink : W;
  unread : body;
  handlerCalls : nat
}.
Arguments mkOutcome {W} _ _ _ _ _.
Arguments how {W} _.
Arguments after {W} _.
Arguments sink {W} _.
Arguments unread {W} _.
Arguments handlerCalls {W} _.

(** The library functions the package relies on: the SHA-256 digest of a
    byte sequence ([crypto/sha256]), [textproto.CanonicalMIMEHeaderKey],
    and [jsrest.WriteError] on a response writer. *)
Class GoLibrary := {
  Sum256 : bytes -> bytes;
  CanonicalMIMEHeaderKey : string -> string
}.

Class ErrorWriter (W : Type) := {
  WriteError : W -> error -> W
}.

Section Dispatcher.
Context `{!GoLibrary} {W : Type} `{!ResponseWriter W} `{!ErrorWriter W}.

Definition hash_Sum (h : hashState) : bytes := Sum256 (written h).

(** [http.Header.Get] and [http.Header.Set]. *)
Definition Header_Get (h : HttpHeader) (key : string) : string :=
  match h !! CanonicalMIMEHeaderKey key with
  | Some (v :: _) => v
  | _ => ""%string
  end.

Definition Header_Set (h : HttpHeader) (key value : string) : HttpHeader :=
  <[CanonicalMIMEHeaderKey key := [value]]> h.

(** The loop over [criticalHeaders] on a hit. *)
Fixpoint firstHeaderMismatch (hs : list string) (saved current : HttpHeader)
    : option error :=
  match hs with
  | [] => None
  | h :: hs' =>
      if bool_decide (Header_Get saved h ≠ Header_Get current h)
      then Some (HeaderMismatch h (Header_Get current h))
      else firstHeaderMismatch hs' saved current
  end.

(** The loop [for key, vals := range saved.responseHeader] over the
    entries in the order [entries]; [vals[0]] panics on an empty list. *)
Fixpoint replayHeader (entries : list (string * list string)) (w : W)
    : handlerExit * W :=
  match entries with
  | [] => (Returns, w)
  | (key, vals) :: entries' =>
      match vals with
      | [] => (Panics, w)
      | v :: _ =>
          replayHeader entries' (rw_mutateHeader (fun h => Header_Set h key v) w)
      end
  end.

(** The branch [saved != nil] of [serveHTTP]. *)
Definition replay (p : Potency) (w : W) (r : Request) (saved : savedResult)
    : outcome W :=
  if bool_decide (Method r ≠ sr_method saved)
  then mkOutcome (Done (Some (MethodMismatch (Method r)))) p w (Body r) 0
  else if bool_decide (URL r ≠ sr_url saved)
  then mkOutcome (Done (Some (URLMismatch (URL r)))) p w (Body r) 0
  else
    match firstHeaderMismatch criticalHeaders (sr_requestHeader saved) (Header r) with
    | Some e => mkOutcome (Done (Some e)) p w (Body r) 0
    | None =>
        let '(h, rest, err) := io_Copy sha256_New (Body r) in
        match err with
        | Some e => mkOutcome (Done (Some (HashBodyFailed e))) p w rest 0
        | None =>
            let sha256 := hash_Sum h in
            if bool_decide (sha256 ≠ sr_sha256 saved)
            then mkOutcome (Done (Some (BodyMismatch sha256 (sr_sha256 saved))))
                   p w rest 0
            else
              match replayHeader (map_to_list (sr_responseHeader saved)) w with
              | (Panics, w1) => mkOutcome Panicked p w1 rest 0
              | (Returns, w1) =>
                  let w2 := rw_WriteHeader w1 (sr_statusCode saved) in
                  let '(w3, _) := rw_Write w2 (sr_responseBody saved) in
                  mkOutcome (Done None) p w3 rest 0
              end
        end
    end.

(** The loop that captures the critical headers of the request. *)
Definition captureHeaders (hs : list string) (current : HttpHeader) : HttpHeader :=
  fold_left (fun acc h => Header_Set acc h (Header_Get current h)) hs ∅.

(** The literal [savedResult{...}] of [serveHTTP]: [added] and [newer]
    are left at their zero values. The object holds the header map of
    the writer as it stands when the handler has returned; the writer of
    a request is taken not to serve another request afterwards. *)
Definition savedAs (r : Request) (key : string) (requestHeader : HttpHeader)
    (rwi : responseWriterIntercept W) (bi : bodyIntercept body) : savedResult :=
  mkSaved key (Method r) (URL r) requestHeader (hash_Sum (bi_sha256 bi))
    (rwi_statusCode rwi) (rwi_Header rwi) (rwi_buf rwi) 0 None.

(** [serveHTTP] from the line after [defer p.unlockKey(key)] to its end. *)
Definition execute (p : Potency) (w : W) (r : Request) (key : string)
    (clk : clock) : outcome W :=
  let requestHeader := captureHeaders criticalHeaders (Header r) in
  let bi := newBodyIntercept (Body r) in
  let rwi := newResponseWriterIntercept w in
  match runHandler (handler p (Method r) (URL r) (Header r)) rwi bi with
  | (Panics, rwi', bi') =>
      mkOutcome Panicked p (rwi_dest rwi') (bi_source bi') 1
  | (Returns, rwi', bi') =>
      let save := savedAs r key requestHeader rwi' bi' in
      let '(p1, sr) := alloc p save in
      match write (now_write clk) (now_sweep clk) p1 sr with
      | None => mkOutcome Hung p1 (rwi_dest rwi') (bi_source bi') 1
      | Some p2 => mkOutcome (Done None) p2 (rwi_dest rwi') (bi_source bi') 1
      end
  end.

(** The condition of the first [if] of [serveHTTP]. *)
Definition invalidKey (val : string) : bool :=
  (String.length val <? 2)%nat || negb (HasPrefix val dquoteStr)
  || negb (HasSuffix val dquoteStr).

(** The slice [val[1 : len(val)-1]]. *)
Definition bareKey (val : string) : string :=
  substring 1 (String.length val - 2) val.

(** The deferred [p.unlockKey(key)]: it runs when the function returns and
    when a panic unwinds it, not when it never ends. *)
Definition deferUnlock (key : string) (o : outcome W) : outcome W :=
  match how o with
  | Hung => o
  | _ => mkOutcome (how o) (unlockKey (after o) key) (sink o) (unread o)
           (handlerCalls o)
  end.

(** [serveHTTP]. A map entry that is not the address of an object has no
    counterpart in Go; the call is then taken to panic. *)
Definition serveHTTP (p : Potency) (w : W) (r : Request) (val : string)
    (clk : clock) : outcome W :=
  if invalidKey val
  then mkOutcome (Done (Some (InvalidKey val))) p w (Body r) 0
  else
    let key := bareKey val in
    match read p key with
    | Some a =>
        match store p !! a with
        | Some saved => replay p w r saved
        | None => mkOutcome Panicked p w (Body r) 0
        end
    | None =>
        match lockKey p key with
        | (p1, Some _) => mkOutcome (Done (Some (Conflict key))) p1 w (Body r) 0
        | (p1, None) => deferUnlock key (execute p1 w r key clk)
        end
    end.

(** [p.handler.ServeHTTP(w, r)] on the writer and the request as they
    came in. *)
Definition forward (p : Potency) (w : W) (r : Request) : outcome W :=
  match runHandler (handler p (Method r) (URL r) (Header r)) w (Body r) with
  | (Returns, w', b') => mkOutcome (Done None) p w' b' 1
  | (Panics, w', b') => mkOutcome Panicked p w' b' 1
  end.

(** [ServeHTTP]. An error returned by [serveHTTP] is handed to
    [jsrest.WriteError]; the outcome keeps it as the way the call ended. *)
Definition ServeHTTP (p : Potency) (w : W) (r : Request) (clk : clock)
    : outcome W :=
  let val := Header_Get (Header r) "Idempotency-Key" in
  if bool_decide (val = ""%string)
  then forward p w r
  else
    let o := serveHTTP p w r val clk in
    match how o with
    | Done (Some err) =>
        mkOutcome (how o) (after o) (WriteError (sink o) err) (unread o)
          (handlerCalls o)
    | _ => o
    end.

(** ** Sequences of operations *)

(** The operations of a response writer, as a handler may issue them on
    the interceptor. *)
Inductive tapOp :=
| OpMutateHeader (f : HttpHeader -> HttpHeader)
| OpWrite (data : bytes)
| OpWriteHeader (statusCode : Z).

Definition tapStep (rwi : responseWriterIntercept W) (op : tapOp)
    : responseWriterIntercept W :=
  match op with
  | OpMutateHeader f => rwi_mutateHeader f rwi
  | OpWrite data => fst (rwi_Write rwi data)
  | OpWriteHeader statusCode => rwi_WriteHeader rwi statusCode
  end.

Definition tapRun (ops : list tapOp) (rwi : responseWriterIntercept W)
    : responseWriterIntercept W :=
  fold_left tapStep ops rwi.

(** One operation on a [Potency] between two requests, or a request
    that no other request overlaps. Requests that are served at the same
    time are the subject of [interleaves] below. *)
Inductive step : Potency -> Potency -> Prop :=
| step_SetLifetime p d : step p (SetLifetime p d)
| step_ServeHTTP p w r clk :
    how (ServeHTTP p w r clk) ≠ Hung ->
    step p (after (ServeHTTP p w r clk)).

Inductive reachable : Potency -> Prop :=
| reachable_New h : reachable (NewPotency h)
| reachable_step p p' : reachable p -> step p p' -> reachable p'.

(** ** Requests that overlap *)

(** [serveHTTP] holds [cacheMu] inside [read] and inside [write], and
    [inProgressMu] inside [lockKey] and [unlockKey]; from one of these
    calls to the next it holds no lock, so that the calls of requests
    served at the same time interleave there. A request in flight is at
    one of these points: before [read], before [lockKey], before the
    handler, before [write] (with the object it has built), before the
    deferred [unlockKey] (with the way it will end), or at its end. *)
Inductive point :=
| AtRead
| AtLockKey (key : string)
| AtHandler (key : string)
| AtWrite (key : string) (save : savedResult)
| AtUnlockKey (key : string) (c : completion)
| Ended (c : completion).

(** A request in flight: where it is, its writer, the request, the value
    of its Idempotency-Key header, its readings of the clock, what is left
    of its body and the number of handler calls made for it. *)
Record flight := mkFlight {
  fl_at : point;
  fl_w : W;
  fl_r : Request;
  fl_val : string;
  fl_clk : clock;
  fl_unread : body;
  fl_calls : nat
}.

Definition newFlight (w : W) (r : Request) (val : string) (clk : clock) : flight :=
  mkFlight AtRead w r val clk (Body r) 0.

Definition moveTo (f : flight) (pt : point) : flight :=
  mkFlight pt (fl_w f) (fl_r f) (fl_val f) (fl_clk f) (fl_unread f) (fl_calls f).

(** The next stretch of [serveHTTP] for one request, up to its next
    point, on the [Potency] as the other requests have left it. The hit
    branch is one stretch: after [read] it touches nothing but the fields
    of the object found, which no one writes after the insert (the chain
    link apart, which it does not read). The object is built before
    [write] is called; it is placed in the store when [write] runs, no
    one else having its address before. *)
Definition advance (p : Potency) (f : flight) : Potency * flight :=
  let r := fl_r f in
  match fl_at f with
  | AtRead =>
      if invalidKey (fl_val f)
      then (p, moveTo f (Ended (Done (Some (InvalidKey (fl_val f))))))
      else
        let key := bareKey (fl_val f) in
        match read p key with
        | Some a =>
            match store p !! a with
            | Some saved =>
                let o := replay p (fl_w f) r saved in
                (p, mkFlight (Ended (how o)) (sink o) r (fl_val f) (fl_clk f)
                      (unread o) (handlerCalls o))
            | None => (p, moveTo f (Ended Panicked))
            end
        | None => (p, moveTo f (AtLockKey key))
        end
  | AtLockKey key =>
      match lockKey p key with
      | (p1, Some _) => (p1, moveTo f (Ended (Done (Some (Conflict key)))))
      | (p1, None) => (p1, moveTo f (AtHandler key))
      end
  | AtHandler key =>
      let requestHeader := captureHeaders criticalHeaders (Header r) in
      match runHandler (handler p (Method r) (URL r) (Header r))
              (newResponseWriterIntercept (fl_w f)) (newBodyIntercept (Body r)) with
      | (Panics, rwi', bi') =>
          (p, mkFlight (AtUnlockKey key Panicked) (rwi_dest rwi') r (fl_val f)
                (fl_clk f) (bi_source bi') 1)
      | (Returns, rwi', bi') =>
          (p, mkFlight (AtWrite key (savedAs r key requestHeader rwi' bi'))
                (rwi_dest rwi') r (fl_val f) (fl_clk f) (bi_source bi') 1)
      end
  | AtWrite key save =>
      let '(p1, sr) := alloc p save in
      match write (now_write (fl_clk f)) (now_sweep (fl_clk f)) p1 sr with
      | None => (p1, moveTo f (Ended Hung))
      | Some p2 => (p2, moveTo f (AtUnlockKey key (Done None)))
      end
  | AtUnlockKey key c => (unlockKey p key, moveTo f (Ended c))
  | Ended _ => (p, f)
  end.

(** The requests in flight on one [Potency]; [turn i] lets the request
    of index [i] run to its next point, [schedule] a sequence of turns. *)
Definition turn (i : nat) (s : Potency * list flight) : Potency * list flight :=
  match s.2 !! i with
  | Some f => let '(p', f') := advance s.1 f in (p', <[i := f']> s.2)
  | None => s
  end.

Definition schedule (order : list nat) (s : Potency * list flight)
    : Potency * list flight :=
  fold_left (fun s i => turn i s) order s.

(** What may happen next on a [Potency] with requests in flight: a
    request arrives, a request in flight takes a turn, or the lifetime
    is set. *)
Inductive interleaves : Potency * list flight -> Potency * list flight -> Prop :=
| il_arrive p fs w r val clk :
    interleaves (p, fs) (p, fs ++ [newFlight w r val clk])
| il_turn s i : interleaves s (turn i s)
| il_SetLifetime p fs d : interleaves (p, fs) (SetLifetime p d, fs).

Inductive inFlight : Potency * list flight -> Prop :=
| inFlight_New h : inFlight (NewPotency h, [])
| inFlight_next s s' : inFlight s -> interleaves s s' -> inFlight s'.

(** The request holds the key [key] in the in-progress set. *)
Definition holdsKey (f : flight) (key : string) : Prop :=
  match fl_at f with
  | AtHandler k | AtWrite k _ | AtUnlockKey k _ => k = key
  | _ => False
  end.

(** At most one request in flight holds a key, and a key that is held
    is in the in-progress set. *)
Definition exclusive (s : Potency * list flight) : Prop :=
  (forall i f key,
     s.2 !! i = Some f -> holdsKey f key -> inProgress s.1 !! key = Some true)
  /\ (forall i j f g key,
        s.2 !! i = Some f -> s.2 !! j = Some g ->
        holdsKey f key -> holdsKey g key -> i = j).

(** The object a request is about to insert is as [serveHTTP] builds it:
    under the key the request holds, without a chain link. *)
Definition pending (f : flight) : Prop :=
  match fl_at f with
  | AtWrite key save => sr_key save = key /\ sr_newer save = None
  | AtUnlockKey _ c | Ended c => c ≠ Hung
  | _ => True
  end.

End Dispatcher.




(** The byte range a [Read] returned: [p[:n]]. *)
Definition consumed (r : readResult) : bytes := take (Z.to_nat (rr_n r)) (rr_p r).

(** The bytes a body delivers up to its first error ([io.EOF] included). *)
Fixpoint streamBytes (b : body) : bytes :=
  match b with
  | [] => []
  | (c, None) :: rest => c ++ streamBytes rest
  | (c, Some _) :: _ => c
  end.

(** The token syntax of the Idempotency-Key value: raw length at least 2,
    first and last character the quote mark. *)
Definition validToken (val : string) : Prop :=
  (2 <= String.length val)%nat
  /\ String.get 0 val = Some dquote
  /\ String.get (String.length val - 1) val = Some dquote.

(** Two objects that differ at most in their chain link. *)
Definition sameResult (a b : savedResult) : Prop :=
  set_newer None a = set_newer None b.

(** What a step from [p] to [p'] may do to the entries of the map: an
    entry stays on its object, which changes at most in its chain link,
    or it goes away; and an entry of [p'] is an entry of [p] or sits on
    an object that did not exist in [p], under a key that was absent. *)
Definition entriesPreserved (p p' : Potency) : Prop :=
  (forall k a obj,
     cache p !! k = Some a -> store p !! a = Some obj ->
     (cache p' !! k = Some a
      /\ exists obj', store p' !! a = Some obj' /\ sameResult obj' obj)
     \/ cache p' !! k = None)
  /\ (forall k b,
       cache p' !! k = Some b ->
       cache p !! k = Some b \/ (cache p !! k = None /\ store p !! b = None)).

(** Well-formed stores: every pointer is the address of an object, and
    chain links lead to objects allocated later. *)
Record wf (p : Potency) : Prop := mkWf {
  wf_newer : forall a obj b,
    store p !! a = Some obj -> sr_newer obj = Some b ->
    (a < b)%nat /\ (b < length (store p))%nat;
  wf_oldest : forall a, cacheOldest p = Some a -> (a < length (store p))%nat;
  wf_newest : forall a, cacheNewest p = Some a -> (a < length (store p))%nat;
  wf_cache : forall k a, cache p !! k = Some a -> (a < length (store p))%nat
}.

(** ** More vocabulary for the properties *)

(** An operation of a response writer applied to the writer itself. *)
Definition destStep {W : Type} `{!ResponseWriter W} (w : W) (op : tapOp) : W :=
  match op with
  | OpMutateHeader f => rw_mutateHeader f w
  | OpWrite data => (rw_Write w data).1
  | OpWriteHeader statusCode => rw_WriteHeader w statusCode
  end.

(** The payloads of the [Write] calls, one after the other. *)
Definition tapWrites (ops : list tapOp) : bytes :=
  concat (omap (fun op => match op with OpWrite d => Some d | _ => None end) ops).

(** The contract of [io.Reader] the body interceptor relies on when it
    slices the buffer: [0 <= n <= len(p)]. *)
Definition ReaderContract (S : Type) `{!ReadCloser S} : Prop :=
  forall (s s' : S) (p : bytes) (r : readResult),
    rc_Read s p = Some (s', r) ->
    (0 <= rr_n r)%Z /\ (rr_n r <= Z.of_nat (length (rr_p r)))%Z.

(** [onExpiredRun cutoff st a c]: following the chain from [a], every
    object up to and including [c] was added before [cutoff]. *)
Inductive onExpiredRun (cutoff : Z) (st : list savedResult) : addr -> addr -> Prop :=
| run_here a it :
    st !! a = Some it -> (sr_added it < cutoff)%Z -> onExpiredRun cutoff st a a
| run_next a it b c :
    st !! a = Some it -> (sr_added it < cutoff)%Z -> sr_newer it = Some b ->
    onExpiredRun cutoff st b c -> onExpiredRun cutoff st a c.

(** The key [k] is carried by an object on the expired run that starts
    at [cacheOldest]. *)
Definition expiredKey (cutoff : Z) (p : Potency) (k : string) : Prop :=
  exists a c it,
    cacheOldest p = Some a /\ onExpiredRun cutoff (store p) a c
    /\ store p !! c = Some it /\ sr_key it = k.

(** Every entry of the map is on an object that carries the key of the
    entry. *)
Definition keyed (p : Potency) : Prop :=
  forall k a, cache p !! k = Some a ->
    exists obj, store p !! a = Some obj /\ sr_key obj = k.

(** The chain links the objects in the order in which they were
    allocated: each object to the next, the last to none; [cacheNewest]
    is the last object and [cacheOldest] is nil only when there is none. *)
Definition chained (p : Potency) : Prop :=
  (forall a obj, store p !! a = Some obj ->
     sr_newer obj
     = if decide (Datatypes.S a < length (store p))%nat
       then Some (Datatypes.S a) else None)
  /\ cacheNewest p
     = match length (store p) with
       | O => None
       | Datatypes.S n => Some n
       end
  /\ (cacheOldest p = None <-> store p = []).

(** ** The library, concretely *)

(** SHA-256 (FIPS 180-4) on byte sequences, words being integers below
    [2^32]. The constants are computed: the fractional parts of the cube
    roots of the first 64 primes, and of the square roots of the first 8. *)
Module SHA256.
Local Open Scope Z_scope.

Definition w32 (x : Z) : Z := x mod 2 ^ 32.
Definition rotr (n x : Z) : Z :=
  w32 (Z.lor (Z.shiftr x n) (Z.shiftl x (32 - n))).
Definition shr (n x : Z) : Z := Z.shiftr x n.
Definition xor3 (a b c : Z) : Z := Z.lxor a (Z.lxor b c).

Definition Ch (x y z : Z) : Z :=
  Z.lxor (Z.land x y) (Z.land (w32 (Z.lnot x)) z).
Definition Maj (x y z : Z) : Z :=
  xor3 (Z.land x y) (Z.land x z) (Z.land y z).
Definition bigSigma0 (x : Z) : Z := xor3 (rotr 2 x) (rotr 13 x) (rotr 22 x).
Definition bigSigma1 (x : Z) : Z := xor3 (rotr 6 x) (rotr 11 x) (rotr 25 x).
Definition smallSigma0 (x : Z) : Z := xor3 (rotr 7 x) (rotr 18 x) (shr 3 x).
Definition smallSigma1 (x : Z) : Z := xor3 (rotr 17 x) (rotr 19 x) (shr 10 x).

Definition isPrime (n : Z) : bool :=
  (1 <? n)
  && forallb (fun d => negb (n mod d =? 0))
       (map Z.of_nat (seq 2 (Z.to_nat n - 2))).

Definition primes64 : list Z :=
  Eval vm_compute in
    take 64 (filter (fun n => isPrime n = true) (map Z.of_nat (seq 2 310))).

(** Integer cube root of [n], by bisection between [lo] and [hi]. *)
Fixpoint cbrtBetween (fuel : nat) (lo hi n : Z) : Z :=
  match fuel with
  | O => lo
  | S fuel' =>
      let mid := (lo + hi) / 2 in
      if mid * mid * mid <=? n
      then cbrtBetween fuel' mid hi n
      else cbrtBetween fuel' lo mid n
  end.
Definition cbrt (n : Z) : Z := cbrtBetween 140 0 (2 ^ 44) n.

Definition K : list Z :=
  Eval vm_compute in map (fun p => w32 (cbrt (p * 2 ^ 96))) primes64.
Definition H0 : list Z :=
  Eval vm_compute in map (fun p => w32 (Z.sqrt (p * 2 ^ 64))) (take 8 primes64).

(** Big-endian words. *)
Definition beWord (bs : list Z) : Z :=
  fold_left (fun acc b => acc * 256 + b) bs 0.
Definition beBytes (n : nat) (x : Z) : list Z :=
  map (fun i => (x / 256 ^ Z.of_nat (n - 1 - i)) mod 256) (seq 0 n).

Definition pad (msg : list Z) : list Z :=
  let len := Z.of_nat (length msg) in
  let zeros := Z.to_nat ((55 - len) mod 64) in
  msg ++ [128] ++ repeat 0 zeros ++ beBytes 8 (len * 8).

Fixpoint chunksOf (fuel n : nat) (l : list Z) : list (list Z) :=
  match fuel, l with
  | O, _ | _, [] => []
  | S fuel', _ => take n l :: chunksOf fuel' n (drop n l)
  end.

(** The message schedule: the 16 words of a block, extended by [n]. *)
Fixpoint extend (n : nat) (w : list Z) : list Z :=
  match n with
  | O => w
  | S n' =>
      let t := length w in
      let back (i : nat) := nth (t - i) w 0 in
      extend n'
        (w ++ [w32 (smallSigma1 (back 2%nat) + back 7%nat
                    + smallSigma0 (back 15%nat) + back 16%nat)])
  end.

Definition round (st : list Z) (kw : Z * Z) : list Z :=
  match st with
  | [a; b; c; d; e; f; g; h] =>
      let t1 := h + bigSigma1 e + Ch e f g + fst kw + snd kw in
      let t2 := bigSigma0 a + Maj a b c in
      [w32 (t1 + t2); a; b; c; w32 (d + t1); e; f; g]
  | _ => st
  end.

Definition compress (st : list Z) (block : list Z) : list Z :=
  let w := extend 48 (map beWord (chunksOf 16 4 block)) in
  let st' := fold_left round (combine K w) st in
  map (fun xy => w32 (fst xy + snd xy)) (combine st st').

Definition byteZ (b : byte) : Z := Z.of_N (Byte.to_N b).
Definition zByte (z : Z) : byte := default x00 (Byte.of_N (Z.to_N z)).

Definition Sum256 (msg : bytes) : bytes :=
  let padded := pad (map byteZ msg) in
  let blocks := chunksOf (length padded) 64 padded in
  map zByte (concat (map (beBytes 4) (fold_left compress blocks H0))).

End SHA256.

(** [textproto.CanonicalMIMEHeaderKey], as documented: the first letter
    and any letter following a hyphen in upper case, the rest in lower
    case; a key with a byte that is not a token character is returned
    as it is. *)
Module textproto.

Definition inRange (lo hi : nat) (c : ascii) : bool :=
  (lo <=? nat_of_ascii c)%nat && (nat_of_ascii c <=? hi)%nat.
Definition isLower : ascii -> bool := inRange 97 122.
Definition isUpper : ascii -> bool := inRange 65 90.
Definition isDigit : ascii -> bool := inRange 48 57.

Definition validHeaderFieldByte (c : ascii) : bool :=
  isLower c || isUpper c || isDigit c
  || bool_decide (c ∈ list_ascii_of_string "!#$%&'*+-.^_`|~").

Fixpoint canonicalize (upper : bool) (s : string) : string :=
  match s with
  | EmptyString => EmptyString
  | String c s' =>
      let c' :=
        if upper && isLower c then ascii_of_nat (nat_of_ascii c - 32)
        else if negb upper && isUpper c then ascii_of_nat (nat_of_ascii c + 32)
        else c in
      String c' (canonicalize (Ascii.eqb c' "-") s')
  end.

Definition CanonicalMIMEHeaderKey (s : string) : string :=
  if forallb validHeaderFieldByte (list_ascii_of_string s)
  then canonicalize true s
  else s.

End textproto.

Definition goLibrary : GoLibrary := {|
  Sum256 := SHA256.Sum256;
  CanonicalMIMEHeaderKey := textproto.CanonicalMIMEHeaderKey
|}.

(** ** A response writer that records what it is told *)

(** Like [httptest.ResponseRecorder], the recorder has more methods than
    [http.ResponseWriter] asks for, Flush among them. *)

Inductive recorded :=
| GotWriteHeader (statusCode : Z)
| GotWrite (data : bytes)
| GotError (err : error).

Record recorder := mkRecorder {
  rec_header : HttpHeader;
  rec_calls : list recorded
}.

Definition recorder_new : recorder := mkRecorder ∅ [].

Definition recorder_ResponseWriter : ResponseWriter recorder := {|
  rw_Header := rec_header;
  rw_mutateHeader := fun f w => mkRecorder (f (rec_header w)) (rec_calls w);
  rw_Write := fun w data =>
    (mkRecorder (rec_header w) (rec_calls w ++ [GotWrite data]),
     (Z.of_nat (length data), None));
  rw_WriteHeader := fun w statusCode =>
    mkRecorder (rec_header w) (rec_calls w ++ [GotWriteHeader statusCode]);
  rw_methods := ["Header"; "Write"; "WriteString"; "WriteHeader"; "Flush"];
  rw_Header_mutate := fun f w => eq_refl
|}.

Definition recorder_ErrorWriter : ErrorWriter recorder := {|
  WriteError := fun w err =>
    mkRecorder (rec_header w) (rec_calls w ++ [GotError err])
|}.

(** ** Sample requests *)

Section Samples.
#[local] Existing Instance goLibrary.
#[local] Existing Instance recorder_ResponseWriter.
#[local] Existing Instance recorder_ErrorWriter.
Local Open Scope string_scope.

(** A handler that reads once from the body, sets a header with one
    value and a header with two, and answers 201 with what it read. *)
Definition sampleHandler : Handler := fun method url header =>
  HRead (repeat x00 8) (fun got =>
  HMutateHeader (fun h => <["X-Response" := ["bar"]]> h)
  (HMutateHeader (fun h => <["Set-Cookie" := ["a=1"; "b=2"]]> h)
  (HWriteHeader 201
  (HWrite (consumed got) (fun _ => HReturn))))).

Definition quoted (key : string) : string := dquoteStr ++ key ++ dquoteStr.

Definition sampleRequest (key content : string) : Request :=
  mkRequest "POST" "/orders" {[ "Idempotency-Key" := [quoted key] ]}
    [(list_byte_of_string content, None)].

Definition at_hour (n : Z) : clock := mkClock (n * hour) (n * hour).

(** One request with the key abc, then requests on the state it leaves. *)
Definition served1 : outcome recorder :=
  ServeHTTP (NewPotency sampleHandler) recorder_new
    (sampleRequest "abc" "test1") (at_hour 0).

Definition servedAgain (content : string) : outcome recorder :=
  ServeHTTP (after served1) recorder_new (sampleRequest "abc" content) (at_hour 1).

(** The object the first request leaves in the store. *)
Definition savedAbc : savedResult :=
  mkSaved "abc" "POST" "/orders"
    (<["Authorization" := [""]]> (<["Accept" := [""]]> ∅))
    (SHA256.Sum256 (list_byte_of_string "test1")) 201
    (<["Set-Cookie" := ["a=1"; "b=2"]]> (<["X-Response" := ["bar"]]> ∅))
    (list_byte_of_string "test1") 0 None.

(** A request whose body is longer than what the sample handler reads,
    and a retry of it on the state it leaves. *)
Definition servedLong : outcome recorder :=
  serveHTTP (NewPotency sampleHandler) recorder_new
    (sampleRequest "abc" "hello world") (quoted "abc") (at_hour 0).

(** The interceptors as the sample handler leaves them after it has read
    and echoed [content] (no more than 8 bytes of it) from a body of which
    [left] remains. *)
Definition sampleHeaders : HttpHeader :=
  <["Set-Cookie" := ["a=1"; "b=2"]]> (<["X-Response" := ["bar"]]> ∅).

Definition sampleRwi (content : string) : responseWriterIntercept recorder :=
  mkRWI
    (mkRecorder sampleHeaders
       [GotWriteHeader 201; GotWrite (list_byte_of_string content)])
    (list_byte_of_string content) 201.

Definition sampleBi (content : string) (left : body) : bodyIntercept body :=
  mkBI left (mkHash (list_byte_of_string content)).

(** The object the first request of the aged sequence leaves. *)
Definition savedA : savedResult :=
  mkSaved "a" "POST" "/orders"
    (<["Authorization" := [""]]> (<["Accept" := [""]]> ∅))
    (SHA256.Sum256 (list_byte_of_string "test1")) 201 sampleHeaders
    (list_byte_of_string "test1") 0 None.

(** A handler that stores a header without any value, and the state a
    request to it leaves. *)
Definition valuelessHandler : Handler := fun method url header =>
  HMutateHeader (fun h => <["X-Empty" := []]> h)
  (HWrite (list_byte_of_string "ok") (fun _ => HReturn)).

Definition servedValueless : outcome recorder :=
  serveHTTP (NewPotency valuelessHandler) recorder_new (sampleRequest "abc" "")
    (quoted "abc") (at_hour 0).

Definition savedValueless : savedResult :=
  mkSaved "abc" "POST" "/orders"
    (<["Authorization" := [""]]> (<["Accept" := [""]]> ∅))
    (SHA256.Sum256 []) 200 (<["X-Empty" := []]> ∅)
    (list_byte_of_string "ok") 0 None.

(** A handler that streams when its writer can flush, as handlers of
    server-sent events do, and refuses otherwise. *)
Definition flushingHandler : Handler := fun method url header =>
  HAssertWriter ["Flush"] (fun ok =>
    if ok
    then HWrite (list_byte_of_string "event") (fun _ => HReturn)
    else HWriteHeader 500
           (HWrite (list_byte_of_string "streaming unsupported")
              (fun _ => HReturn))).

(** A request with the key b on the state the first sample request
    leaves. *)
Definition servedB : outcome recorder :=
  ServeHTTP (after served1) recorder_new (sampleRequest "b" "test1") (at_hour 1).

(** Two requests with the same key and different bodies, in flight on a
    new [Potency]. *)
Definition overlapping : Potency * list (flight (W:=recorder)) :=
  (NewPotency sampleHandler,
   [newFlight recorder_new (sampleRequest "abc" "test1") (quoted "abc") (at_hour 0);
    newFlight recorder_new (sampleRequest "abc" "test2") (quoted "abc") (at_hour 0)]).

(** A request that carries its key without the quote marks, and one that
    differs from the sample request in a header that is not critical. *)
Definition unquotedRequest : Request :=
  mkRequest "POST" "/orders" {[ "Idempotency-Key" := ["abc"] ]}
    [(list_byte_of_string "test1", None)].

Definition otherHeaderRequest : Request :=
  mkRequest "POST" "/orders"
    (<["X-Test" := ["foo"]]> {[ "Idempotency-Key" := [quoted "abc"] ]})
    [(list_byte_of_string "test1", None)].

(** A [Potency] in which the key abc is in progress. *)
Definition busyAbc : Potency := (lockKey (NewPotency sampleHandler) "abc").1.

(** Three requests, with the keys a, b and a again, at hours 0, 7 and 8,
    the lifetime being 6 hours. *)
Definition aged1 : outcome recorder :=
  ServeHTTP (NewPotency sampleHandler) recorder_new
    (sampleRequest "a" "test1") (at_hour 0).
Definition aged2 : outcome recorder :=
  ServeHTTP (after aged1) recorder_new (sampleRequest "b" "test1") (at_hour 7).
Definition aged3 : outcome recorder :=
  ServeHTTP (after aged2) recorder_new (sampleRequest "a" "test1") (at_hour 8).

End Samples.

(** * Properties *)

(** ** The response interceptor *)

Section ResponseTapProperties.
Context {W : Type} `{!ResponseWriter W}.



End ResponseTapProperties.

(** ** The body interceptor *)

Section BodyTapProperties.
Context `{!GoLibrary} {S : Type} `{!ReadCloser S}.





End BodyTapProperties.

(** ** Key syntax *)

Lemma substring_one_get (s : string) (n : nat) (c : ascii) :
  substring n 1 s = String c EmptyString <-> String.get n s = Some c.
Proof.
  revert n. induction s as [|a s IH]; intros n.
  - destruct n; cbn; split; discriminate.
  - destruct n as [|n]; cbn.
    + destruct s; cbn; split; congruence.
    + apply IH.
Qed.

Lemma HasPrefix_dquote (val : string) :
  HasPrefix val dquoteStr = true <-> String.get 0 val = Some dquote.
Proof.
  unfold HasPrefix, dquoteStr. cbn [String.length].
  rewrite andb_true_iff, Nat.leb_le, String.eqb_eq, substring_one_get.
  split; [tauto|]. intros Hget. split; [|done].
  destruct val; [discriminate|cbn; lia].
Qed.

Lemma HasSuffix_dquote (val : string) :
  HasSuffix val dquoteStr = true
  <-> String.get (String.length val - 1) val = Some dquote.
Proof.
  unfold HasSuffix, dquoteStr. cbn [String.length].
  rewrite andb_true_iff, Nat.leb_le, String.eqb_eq, substring_one_get.
  split; [tauto|]. intros Hget. split; [|done].
  destruct val; [discriminate|cbn; lia].
Qed.

Lemma invalidKey_false (val : string) :
  invalidKey val = false <-> validToken val.
Proof.
  unfold invalidKey, validToken.
  rewrite !orb_false_iff, !negb_false_iff, Nat.ltb_ge,
    HasPrefix_dquote, HasSuffix_dquote.
  tauto.
Qed.

Lemma invalidKey_true (val : string) :
  invalidKey val = true <-> ~ validToken val.
Proof.
  rewrite <- invalidKey_false. destruct (invalidKey val); split; congruence.
Qed.

(** ** The result cache: well-formedness and termination of the sweep *)

Lemma wf_NewPotency (h : Handler) : wf (NewPotency h).
Proof. split; cbn; intros *; done. Qed.

Lemma wf_SetLifetime (p : Potency) (d : Z) : wf p -> wf (SetLifetime p d).
Proof. intros [H1 H2 H3 H4]. by split. Qed.

Lemma wf_unlockKey (p : Potency) (key : string) : wf p -> wf (unlockKey p key).
Proof. intros [H1 H2 H3 H4]. by split. Qed.

Lemma wf_lockKey (p p1 : Potency) (key : string) e :
  lockKey p key = (p1, e) -> wf p -> wf p1.
Proof.
  unfold lockKey. intros Hlock [H1 H2 H3 H4].
  destruct (default false (inProgress p !! key)); injection Hlock as <- <-;
    by split.
Qed.

(** What the loop of [removeExpired] may change: only the map, from which
    it deletes, and [cacheOldest], which it moves onto objects. *)
Lemma removeExpired_loop_frame (fuel : nat) (cutoff : Z) (iter : option addr)
    (p p' : Potency) :
  removeExpired_loop fuel cutoff iter p = Some p' ->
  handler p' = handler p /\ lifetime p' = lifetime p /\ store p' = store p
  /\ cacheNewest p' = cacheNewest p /\ inProgress p' = inProgress p
  /\ (forall k a, cache p' !! k = Some a -> cache p !! k = Some a)
  /\ (cacheOldest p' = cacheOldest p
      \/ exists a, cacheOldest p' = Some a /\ is_Some (store p !! a)).
Proof.
  revert iter p. induction fuel as [|fuel IH]; intros iter p; cbn.
  all: destruct iter as [a|]; [|intros [= <-]; tauto].
  all: destruct (store p !! a) as [it|] eqn:Hit; [|done].
  all: destruct (sr_added it <? cutoff)%Z; [|intros [= <-]; tauto].
  1: done.
  intros Hloop. apply IH in Hloop as (-> & -> & -> & -> & -> & Hsub & Hold).
  cbn in *. repeat (split; [done|]). split.
  - intros k b Hk. apply Hsub in Hk. by apply lookup_delete_Some in Hk as [_ ?].
  - right. destruct Hold as [->|Hold]; eauto.
Qed.

Lemma removeExpired_loop_total (fuel : nat) (cutoff : Z) (iter : option addr)
    (p : Potency) :
  (forall a obj b, store p !! a = Some obj -> sr_newer obj = Some b ->
     (a < b)%nat /\ (b < length (store p))%nat) ->
  (forall a, iter = Some a ->
     (a < length (store p))%nat /\ (length (store p) - a <= fuel)%nat) ->
  is_Some (removeExpired_loop fuel cutoff iter p).
Proof.
  revert iter p. induction fuel as [|fuel IH]; intros iter p Hlinks Hiter; cbn [removeExpired_loop].
  all: destruct iter as [a|]; [|eauto].
  all: destruct (Hiter a eq_refl) as [Ha Hfuel].
  1: lia.
  destruct (lookup_lt_is_Some_2 _ _ Ha) as [it Hit]. rewrite Hit.
  destruct (sr_added it <? cutoff)%Z; [|eauto].
  apply IH; cbn; [done|]. intros b Hb.
  destruct (Hlinks _ _ _ Hit Hb). lia.
Qed.

Lemma removeExpired_total (now : Z) (p : Potency) :
  wf p -> exists p', removeExpired now p = Some p' /\ wf p'.
Proof.
  intros Hwf. unfold removeExpired.
  destruct (removeExpired_loop_total (length (store p))
              (cutoffAt now (lifetime p)) (cacheOldest p) p) as [p' Hp'].
  - apply Hwf.
  - intros a Ha. apply (wf_oldest _ Hwf) in Ha. lia.
  - exists p'. split; [done|].
    apply removeExpired_loop_frame in Hp' as (_ & _ & Hst & Hnew & _ & Hsub & Hold).
    destruct Hwf as [H1 H2 H3 H4]. split; rewrite ?Hst, ?Hnew; eauto.
    intros a Ha. destruct Hold as [Hold|(b & Hold & Hb)].
    + apply H2. congruence.
    + apply lookup_lt_is_Some_1. congruence.
Qed.

(** Where the sweep leaves [cacheOldest]: once it has found the oldest
    object expired, it ends with [cacheOldest] on an object that is
    expired and whose key it has deleted from the map. *)
Lemma removeExpired_loop_oldest_expired (fuel : nat) (cutoff : Z) (a : addr)
    (p p' : Potency) (it : savedResult) :
  removeExpired_loop fuel cutoff (Some a) p = Some p' ->
  store p !! a = Some it ->
  (sr_added it < cutoff)%Z ->
  exists b it',
    cacheOldest p' = Some b /\ store p' !! b = Some it'
    /\ (sr_added it' < cutoff)%Z /\ cache p' !! sr_key it' = None.
Proof.
  revert a p it. induction fuel as [|fuel IH]; intros a p it;
    cbn [removeExpired_loop]; intros Hloop Hit Hold; rewrite Hit in Hloop;
    rewrite (proj2 (Z.ltb_lt _ _) Hold) in Hloop; [done|].
  destruct (sr_newer it) as [b|] eqn:Hnewer.
  - destruct (store p !! b) as [it2|] eqn:Hit2.
    + destruct (decide (sr_added it2 < cutoff)%Z) as [Hold2|Hfresh].
      * by apply (IH b (expire a it p) it2).
      * destruct fuel; cbn [removeExpired_loop] in Hloop;
          change (store (expire a it p)) with (store p) in Hloop;
          rewrite Hit2, (proj2 (Z.ltb_ge (sr_added it2) cutoff) ltac:(lia)) in Hloop;
          injection Hloop as <-; exists a, it; cbn;
          by rewrite lookup_delete_eq.
    + destruct fuel; cbn [removeExpired_loop] in Hloop;
        change (store (expire a it p)) with (store p) in Hloop;
        by rewrite Hit2 in Hloop.
  - destruct fuel; cbn [removeExpired_loop] in Hloop; injection Hloop as <-;
      exists a, it; cbn; by rewrite lookup_delete_eq.
Qed.

(** The objects of the store after [write_insert] on a freshly
    allocated object: the new object carries its timestamp, the object
    that was the newest is linked to it, nothing else changes. *)
Lemma write_insert_lookup (now : Z) (p : Potency) (obj : savedResult) (a : addr) :
  wf p ->
  store (write_insert now (alloc p obj).1 (length (store p)) obj) !! a
  = if decide (a = length (store p)) then Some (set_added now obj)
    else if decide (cacheNewest p = Some a)
         then set_newer (Some (length (store p))) <$> store p !! a
         else store p !! a.
Proof.
  intros Hwf. unfold write_insert, alloc. cbn.
  assert (Hnew : forall nw, cacheNewest p = Some nw -> (nw < length (store p))%nat)
    by apply Hwf.
  assert (Hfresh : alter (set_added now) (length (store p)) (store p ++ [obj]) !! a
                   = if decide (a = length (store p)) then Some (set_added now obj)
                     else store p !! a).
  { rewrite list_lookup_alter. case_decide as Ha; case_decide; try congruence.
    - subst. by rewrite list_lookup_middle.
    - destruct (decide (a < length (store p))%nat).
      + by rewrite lookup_app_l.
      + rewrite !lookup_ge_None_2; [done|lia|rewrite length_app; cbn; lia]. }
  destruct (cacheNewest p) as [nw|] eqn:Hnw.
  - specialize (Hnew nw eq_refl). rewrite list_lookup_alter.
    repeat case_decide; simplify_eq; try lia; rewrite ?Hfresh;
      repeat case_decide; simplify_eq; try lia; done.
  - rewrite Hfresh. repeat case_decide; done.
Qed.

Lemma write_insert_length (now : Z) (p : Potency) (obj : savedResult) :
  length (store (write_insert now (alloc p obj).1 (length (store p)) obj))
  = Datatypes.S (length (store p)).
Proof.
  unfold write_insert, alloc. cbn.
  destruct (cacheNewest p); rewrite ?length_alter, length_app; cbn; lia.
Qed.

Lemma wf_write_insert (now : Z) (p : Potency) (obj : savedResult) :
  wf p -> sr_newer obj = None ->
  wf (write_insert now (alloc p obj).1 (length (store p)) obj).
Proof.
  intros Hwf Hnone. pose proof Hwf as [H1 H2 H3 H4].
  split; rewrite ?write_insert_length.
  - intros a o b. rewrite write_insert_lookup by done.
    repeat case_decide.
    + intros [= <-]. cbn. congruence.
    + destruct (store p !! a) as [o'|] eqn:Ho'; [|done].
      intros [= <-]. cbn. intros [= <-].
      apply lookup_lt_Some in Ho'. lia.
    + intros Ho Hb. destruct (H1 _ _ _ Ho Hb). lia.
  - cbn. intros a. destruct (cacheOldest p) as [o|] eqn:Ho; intros [= <-].
    + specialize (H2 _ eq_refl). lia.
    + lia.
  - cbn. intros a [= <-]. lia.
  - cbn. intros k a. rewrite lookup_insert. case_decide.
    + intros [= <-]. lia.
    + intros Hk. specialize (H4 _ _ Hk). lia.
Qed.

(** [write] on a freshly allocated object ends, in a well-formed state. *)
Lemma write_total (nowAdded nowSweep : Z) (p : Potency) (obj : savedResult) :
  wf p -> sr_newer obj = None ->
  exists p',
    write nowAdded nowSweep (alloc p obj).1 (alloc p obj).2 = Some p'
    /\ removeExpired nowSweep
         (write_insert nowAdded (alloc p obj).1 (length (store p)) obj) = Some p'
    /\ wf p'.
Proof.
  intros Hwf Hnone. unfold write.
  change (store (alloc p obj).1 !! (alloc p obj).2)
    with ((store p ++ [obj]) !! length (store p)).
  rewrite list_lookup_middle by done.
  change (alloc p obj).2 with (length (store p)).
  destruct (removeExpired_total nowSweep
              (write_insert nowAdded (alloc p obj).1 (length (store p)) obj))
    as (p' & Hp' & Hwf'); [by apply wf_write_insert|].
  eauto.
Qed.

(** ** Draining a body *)

Lemma io_Copy_written (h h' : hashState) (b rest : body) e :
  io_Copy h b = (h', rest, e) -> written h' = written h ++ streamBytes b.
Proof.
  revert h. induction b as [|[c [err|]] b IH]; intros h; cbn.
  - intros [= <- <- <-]. by rewrite app_nil_r.
  - destruct err; intros [= <- <- <-]; done.
  - intros Hcopy. apply IH in Hcopy as ->. cbn. by rewrite app_assoc.
Qed.

Lemma hash_Write_nil (h : hashState) : hash_Write h [] = h.
Proof. destruct h as [w]. unfold hash_Write. cbn. by rewrite app_nil_r. Qed.

Lemma hash_Write_app (h : hashState) (c1 c2 : bytes) :
  hash_Write (hash_Write h c1) c2 = hash_Write h (c1 ++ c2).
Proof. unfold hash_Write. cbn. by rewrite app_assoc. Qed.

Lemma io_Copy_split (h : hashState) (n : nat) (c : bytes) e (rest : body) :
  io_Copy (hash_Write h (take n c)) ((drop n c, e) :: rest)
  = io_Copy h ((c, e) :: rest).
Proof. cbn. by rewrite hash_Write_app, take_drop. Qed.

(** One chunk of the body through the loop, whatever its length. *)
Lemma copyLoop_chunk (size : nat) (rest : body) e :
  (0 < size)%nat ->
  (forall h, exists fuel, copyLoop fuel size h rest = Some (io_Copy h rest)) ->
  forall (len : nat) (c : bytes) h,
    length c = len ->
    exists fuel,
      copyLoop fuel size h ((c, e) :: rest) = Some (io_Copy h ((c, e) :: rest)).
Proof.
  intros Hsize Hrest len.
  induction len as [len IH] using lt_wf_ind. intros c h Hlen.
  destruct (decide (length c <= size)%nat) as [Hfits|Hlong].
  - assert (Hread : body_Read ((c, e) :: rest) (repeat x00 size)
                    = (rest, mkReadResult (c ++ drop (length c) (repeat x00 size))
                               (Z.of_nat (length c)) e)).
    { cbn. rewrite repeat_length. by rewrite (proj2 (Nat.leb_le _ _) Hfits). }
    assert (Hh : (if (0 <? Z.of_nat (length c))%Z
                  then hash_Write h (take (Z.to_nat (Z.of_nat (length c)))
                                       (c ++ drop (length c) (repeat x00 size)))
                  else h) = hash_Write h c).
    { rewrite Nat2Z.id, take_app_length. destruct c; [|done].
      cbn. by rewrite hash_Write_nil. }
    destruct e as [[|msg]|].
    + exists 1%nat. cbn [copyLoop]. rewrite Hread. cbn [rr_n rr_p rr_err].
      by rewrite Hh.
    + exists 1%nat. cbn [copyLoop]. rewrite Hread. cbn [rr_n rr_p rr_err].
      by rewrite Hh.
    + destruct (Hrest (hash_Write h c)) as [fuel Hfuel].
      exists (Datatypes.S fuel). cbn [copyLoop]. rewrite Hread.
      cbn [rr_n rr_p rr_err]. by rewrite Hh, Hfuel.
  - destruct (IH (length (drop size c))) with (c := drop size c)
                                               (h := hash_Write h (take size c))
      as [fuel Hfuel]; [rewrite length_drop; lia|done|].
    exists (Datatypes.S fuel). cbn [copyLoop].
    assert (Hread : body_Read ((c, e) :: rest) (repeat x00 size)
                    = ((drop size c, e) :: rest,
                       mkReadResult (take size c) (Z.of_nat size) None)).
    { cbn. rewrite repeat_length.
      by rewrite (proj2 (Nat.leb_gt (length c) size) ltac:(lia)). }
    rewrite Hread. cbn [rr_n rr_p rr_err].
    rewrite (proj2 (Z.ltb_lt 0 (Z.of_nat size)) ltac:(lia)).
    rewrite Nat2Z.id, take_take, Nat.min_id, Hfuel. by rewrite io_Copy_split.
Qed.

(** [io_Copy] is what the read loop of [io.Copy] computes on a body,
    with any buffer that is not empty. *)
Lemma copyLoop_io_Copy (size : nat) (b : body) (h : hashState) :
  (0 < size)%nat ->
  exists fuel, copyLoop fuel size h b = Some (io_Copy h b).
Proof.
  intros Hsize. revert h. induction b as [|[c e] rest IH]; intros h.
  - exists 1%nat. reflexivity.
  - by apply (copyLoop_chunk size rest e Hsize IH (length c)).
Qed.

(** ** The dispatcher *)

Section DispatcherProperties.
Context `{!GoLibrary} {W : Type} `{!ResponseWriter W} `{!ErrorWriter W}.

Implicit Types (p : Potency) (w : W) (r : Request) (val key : string)
  (clk : clock) (saved : savedResult).

Lemma firstHeaderMismatch_Some (hs : list string) (stored current : HttpHeader) e :
  firstHeaderMismatch hs stored current = Some e ->
  exists h, e = HeaderMismatch h (Header_Get current h).
Proof.
  induction hs as [|h hs IH]; cbn; [done|].
  case_bool_decide; [intros [= <-]; eauto|done].
Qed.

(** The hit branch leaves the [Potency] alone, never runs the handler,
    always ends, and fails only with one of its own five errors. *)
Lemma replay_frame p w r saved :
  after (replay p w r saved) = p
  /\ handlerCalls (replay p w r saved) = 0%nat
  /\ how (replay p w r saved) ≠ Hung
  /\ (forall v, how (replay p w r saved) ≠ Done (Some (InvalidKey v)))
  /\ (forall k, how (replay p w r saved) ≠ Done (Some (Conflict k))).
Proof.
  unfold replay.
  repeat case_bool_decide; try (cbn; repeat split; intros; discriminate).
  destruct (firstHeaderMismatch _ _ _) as [e|] eqn:He.
  { apply firstHeaderMismatch_Some in He as [h ->].
    cbn; repeat split; intros; discriminate. }
  destruct (io_Copy sha256_New (Body r)) as [[h rest] [e|]];
    [cbn; repeat split; intros; discriminate|].
  case_bool_decide; [cbn; repeat split; intros; discriminate|].
  destruct (replayHeader _ w) as [[] w1];
    [|cbn; repeat split; intros; discriminate].
  destruct (rw_Write _ _) as [w3 ?]. cbn; repeat split; intros; discriminate.
Qed.

Lemma deferUnlock_how key (o : outcome W) : how (deferUnlock key o) = how o.
Proof. unfold deferUnlock. by destruct (how o) eqn:Ho. Qed.

Lemma deferUnlock_calls key (o : outcome W) :
  handlerCalls (deferUnlock key o) = handlerCalls o.
Proof. unfold deferUnlock. by destruct (how o) eqn:Ho. Qed.

Lemma deferUnlock_after key (o : outcome W) :
  how o ≠ Hung -> after (deferUnlock key o) = unlockKey (after o) key.
Proof. unfold deferUnlock. by destruct (how o) eqn:Ho. Qed.

(** The ways [execute] can end. *)
Lemma execute_how p w r key clk :
  how (execute p w r key clk) = Done None
  \/ how (execute p w r key clk) = Panicked
  \/ how (execute p w r key clk) = Hung.
Proof.
  unfold execute. destruct (runHandler _ _ _) as [[[] rwi'] bi']; cbn; [|tauto].
  destruct (write _ _ _ _); cbn; tauto.
Qed.

Lemma serveHTTP_invalid p w r val clk :
  invalidKey val = true ->
  serveHTTP p w r val clk = mkOutcome (Done (Some (InvalidKey val))) p w (Body r) 0.
Proof. unfold serveHTTP. by intros ->. Qed.

Lemma serveHTTP_hit p w r val clk a saved :
  invalidKey val = false -> read p (bareKey val) = Some a ->
  store p !! a = Some saved ->
  serveHTTP p w r val clk = replay p w r saved.
Proof. unfold serveHTTP. by intros -> -> ->. Qed.

Lemma serveHTTP_miss p w r val clk :
  invalidKey val = false -> read p (bareKey val) = None ->
  serveHTTP p w r val clk
  = match lockKey p (bareKey val) with
    | (p1, Some _) =>
        mkOutcome (Done (Some (Conflict (bareKey val)))) p1 w (Body r) 0
    | (p1, None) => deferUnlock (bareKey val) (execute p1 w r (bareKey val) clk)
    end.
Proof. unfold serveHTTP. by intros -> ->. Qed.

Lemma serveHTTP_valid_not_InvalidKey p w r val clk v :
  invalidKey val = false ->
  how (serveHTTP p w r val clk) ≠ Done (Some (InvalidKey v)).
Proof.
  intros Hval. destruct (read p (bareKey val)) as [a|] eqn:Hread.
  - destruct (store p !! a) as [saved|] eqn:Hsaved.
    + rewrite (serveHTTP_hit _ _ _ _ _ _ _ Hval Hread Hsaved). apply replay_frame.
    + unfold serveHTTP. by rewrite Hval, Hread, Hsaved.
  - rewrite serveHTTP_miss by done.
    destruct (lockKey p (bareKey val)) as [p1 [e|]]; [done|].
    rewrite deferUnlock_how.
    destruct (execute_how p1 w r (bareKey val) clk) as [->|[->| ->]]; done.
Qed.

(** C4. For a non-empty Idempotency-Key value, [serveHTTP] fails with
    InvalidKey, having changed neither the [Potency] (cache, in-progress
    set) nor the response writer nor the body, and without running the
    handler, exactly when the value violates the token syntax (length at
    least 2, first and last character the quote mark). The value made of
    two quote marks is valid, and its bare key is the empty string. *)
Theorem invalid_key_iff_bad_syntax p w r val clk :
  val ≠ ""%string ->
  (((exists v, how (serveHTTP p w r val clk) = Done (Some (InvalidKey v)))
    /\ after (serveHTTP p w r val clk) = p
    /\ sink (serveHTTP p w r val clk) = w
    /\ unread (serveHTTP p w r val clk) = Body r
    /\ handlerCalls (serveHTTP p w r val clk) = 0%nat)
   <-> ~ validToken val)
  /\ validToken (dquoteStr ++ dquoteStr)
  /\ bareKey (dquoteStr ++ dquoteStr) = ""%string.
Proof.
  intros _. split; [|split; [by cbv|done]].
  rewrite <- invalidKey_true. split.
  - intros [[v Hv] _]. destruct (invalidKey val) eqn:Hval; [done|].
    by apply serveHTTP_valid_not_InvalidKey in Hv.
  - intros Hval. rewrite serveHTTP_invalid by done. cbn. eauto 10.
Qed.

(** C10. A request whose Idempotency-Key header is present with the empty
    string as its (first) value is handled as one without the header:
    the wrapped handler of the [Potency] is run, once, for the method,
    the URL and the header of the request as they came in, on the writer
    of the caller and on the body of the request, not on interceptors.
    The call ends as that run ends, with the writer and the body as the
    run leaves them and the [Potency] as it was, and no InvalidKey
    error results, although the syntax rule rejects the empty value. *)
Theorem empty_key_forwarded p w r clk (vs : list string) :
  Header r !! CanonicalMIMEHeaderKey "Idempotency-Key" = Some (""%string :: vs) ->
  (exists e w' b',
     runHandler (handler p (Method r) (URL r) (Header r)) w (Body r) = (e, w', b')
     /\ ServeHTTP p w r clk
        = mkOutcome (match e with Returns => Done None | Panics => Panicked end)
            p w' b' 1)
  /\ after (ServeHTTP p w r clk) = p
  /\ handlerCalls (ServeHTTP p w r clk) = 1%nat
  /\ (forall v, how (ServeHTTP p w r clk) ≠ Done (Some (InvalidKey v)))
  /\ invalidKey "" = true
  /\ (forall r0,
        Header r0 !! CanonicalMIMEHeaderKey "Idempotency-Key" = None ->
        exists e w' b',
          runHandler (handler p (Method r0) (URL r0) (Header r0)) w (Body r0)
          = (e, w', b')
          /\ ServeHTTP p w r0 clk
             = mkOutcome (match e with Returns => Done None | Panics => Panicked end)
                 p w' b' 1).
Proof.
  intros Hpresent.
  assert (Hrun : forall r1,
            Header_Get (Header r1) "Idempotency-Key" = ""%string ->
            exists e w' b',
              runHandler (handler p (Method r1) (URL r1) (Header r1)) w (Body r1)
              = (e, w', b')
              /\ ServeHTTP p w r1 clk
                 = mkOutcome
                     (match e with Returns => Done None | Panics => Panicked end)
                     p w' b' 1).
  { intros r1 Hempty. unfold ServeHTTP, forward.
    rewrite bool_decide_eq_true_2 by done.
    destruct (runHandler _ w (Body r1)) as [[[] w'] b']; by eexists _, _, _. }
  assert (Hempty : Header_Get (Header r) "Idempotency-Key" = ""%string)
    by (unfold Header_Get; by rewrite Hpresent).
  destruct (Hrun r Hempty) as (e & w' & b' & Hplain & Hout).
  split; [by exists e, w', b'|]. rewrite Hout. cbn.
  split_and!; [done|done|by destruct e|done|].
  intros r0 Habsent. apply Hrun. unfold Header_Get. by rewrite Habsent.
Qed.

(** C5. On a hit the checks run in the order method, URL, Accept,
    Authorization (each header by its first value), body digest; the
    digest is taken over everything the incoming body delivers. The first
    check that fails decides the error (MethodMismatch, URLMismatch,
    HeaderMismatch, BodyMismatch), and then the [Potency], hence the
    cached entry, and the response writer are as before and the handler
    was not run. The same holds when the body fails while it is drained,
    the error then being the one that wraps the I/O failure. *)
Theorem hit_checks_in_order p w r val clk (a : addr) saved :
  validToken val ->
  read p (bareKey val) = Some a ->
  store p !! a = Some saved ->
  let o := serveHTTP p w r val clk in
  let differs h := Header_Get (sr_requestHeader saved) h ≠ Header_Get (Header r) h in
  (Method r ≠ sr_method saved ->
     o = mkOutcome (Done (Some (MethodMismatch (Method r)))) p w (Body r) 0)
  /\ (Method r = sr_method saved -> URL r ≠ sr_url saved ->
      o = mkOutcome (Done (Some (URLMismatch (URL r)))) p w (Body r) 0)
  /\ (Method r = sr_method saved -> URL r = sr_url saved ->
      differs "Accept"%string ->
      o = mkOutcome
            (Done (Some (HeaderMismatch "Accept" (Header_Get (Header r) "Accept"))))
            p w (Body r) 0)
  /\ (Method r = sr_method saved -> URL r = sr_url saved ->
      ~ differs "Accept"%string -> differs "Authorization"%string ->
      o = mkOutcome
            (Done (Some (HeaderMismatch "Authorization"
                           (Header_Get (Header r) "Authorization"))))
            p w (Body r) 0)
  /\ (Method r = sr_method saved -> URL r = sr_url saved ->
      ~ differs "Accept"%string -> ~ differs "Authorization"%string ->
      forall h rest,
        io_Copy sha256_New (Body r) = (h, rest, None) ->
        written h = streamBytes (Body r)
        /\ (Sum256 (streamBytes (Body r)) ≠ sr_sha256 saved ->
            o = mkOutcome
                  (Done (Some (BodyMismatch (Sum256 (streamBytes (Body r)))
                                 (sr_sha256 saved))))
                  p w rest 0))
  /\ (Method r = sr_method saved -> URL r = sr_url saved ->
      ~ differs "Accept"%string -> ~ differs "Authorization"%string ->
      forall h rest e,
        io_Copy sha256_New (Body r) = (h, rest, Some e) ->
        o = mkOutcome (Done (Some (HashBodyFailed e))) p w rest 0).
Proof.
  intros Hval Hread Hsaved o differs. subst o differs.
  apply invalidKey_false in Hval.
  rewrite (serveHTTP_hit _ _ _ _ _ _ _ Hval Hread Hsaved).
  unfold replay. cbn [firstHeaderMismatch criticalHeaders].
  split_and!.
  - intros Hm. by rewrite bool_decide_eq_true_2.
  - intros Hm Hu. by rewrite bool_decide_eq_false_2, bool_decide_eq_true_2 by auto.
  - intros Hm Hu Hacc.
    rewrite !bool_decide_eq_false_2 by auto. by rewrite bool_decide_eq_true_2.
  - intros Hm Hu Hacc Hauth.
    rewrite !bool_decide_eq_false_2 by auto. by rewrite bool_decide_eq_true_2.
  - intros Hm Hu Hacc Hauth h rest Hcopy.
    pose proof (io_Copy_written _ _ _ _ _ Hcopy) as Hw. split; [done|].
    intros Hsum. rewrite !bool_decide_eq_false_2 by auto. rewrite Hcopy.
    unfold hash_Sum. rewrite Hw. cbn [written sha256_New app].
    by rewrite bool_decide_eq_true_2.
  - intros Hm Hu Hacc Hauth h rest e Hcopy.
    rewrite !bool_decide_eq_false_2 by auto. by rewrite Hcopy.
Qed.

Lemma replayHeader_ok (entries : list (string * list string)) w :
  (forall k vs, (k, vs) ∈ entries -> vs ≠ []) ->
  exists w1,
    replayHeader entries w = (Returns, w1)
    /\ forall k0,
         (rw_Header w1 !! k0 = rw_Header w !! k0
          /\ forall k vs, (k, vs) ∈ entries -> CanonicalMIMEHeaderKey k ≠ k0)
         \/ (exists k v vs,
               (k, v :: vs) ∈ entries /\ CanonicalMIMEHeaderKey k = k0
               /\ rw_Header w1 !! k0 = Some [v]).
Proof.
  revert w. induction entries as [|[k vals] es IH]; intros w Hne; cbn.
  - exists w. split; [done|]. intros k0. left. split; [done|].
    intros k vs Hin. by apply elem_of_nil in Hin.
  - destruct vals as [|v vals]; [by destruct (Hne k []); [left|]|].
    destruct (IH (rw_mutateHeader (fun h => Header_Set h k v) w)) as (w1 & -> & Hw1).
    { intros k' vs' Hin. apply (Hne k'). by right. }
    exists w1. split; [done|]. intros k0.
    destruct (Hw1 k0) as [[Hsame Hnone]|(k' & v' & vs' & Hin & Hk' & Hget)].
    + rewrite rw_Header_mutate in Hsame. unfold Header_Set in Hsame.
      rewrite lookup_insert in Hsame. case_decide as Hk.
      * right. exists k, v, vals. split; [by left|done].
      * left. split; [done|]. intros k' vs' Hin.
        apply elem_of_cons in Hin as [[= -> ->]|Hin]; [done|by eapply Hnone].
    + right. exists k', v', vs'. split; [by right|done].
Qed.

(** The loop over the stored headers in any order of iteration: when
    every stored header has a canonical name and a value, the writer ends
    with the first value of each, whatever the order. *)
Lemma replayHeader_lookup (stored : HttpHeader)
    (entries : list (string * list string)) w :
  entries ≡ₚ map_to_list stored ->
  (forall k vs, stored !! k = Some vs -> vs ≠ [] /\ CanonicalMIMEHeaderKey k = k) ->
  exists w1,
    replayHeader entries w = (Returns, w1)
    /\ forall k,
         rw_Header w1 !! k
         = match stored !! k with
           | Some (v :: _) => Some [v]
           | _ => rw_Header w !! k
           end.
Proof.
  intros Hperm Hstored.
  assert (Hin : forall k vs, (k, vs) ∈ entries <-> stored !! k = Some vs).
  { intros k vs. rewrite Hperm. apply elem_of_map_to_list. }
  destruct (replayHeader_ok entries w) as (w1 & Hreplay & Hw1).
  { intros k vs Hk. apply Hin in Hk. by destruct (Hstored _ _ Hk). }
  exists w1. split; [done|]. intros k.
  destruct (Hw1 k) as [[Hsame Hnone]|(k' & v' & vs' & Hk' & Hcanon & Hget)].
  - destruct (stored !! k) as [vs|] eqn:Hk; [|done].
    destruct (Hstored _ _ Hk) as [_ Hcanon].
    apply Hin in Hk. by apply Hnone in Hk.
  - apply Hin in Hk'. destruct (Hstored _ _ Hk') as [_ Hself].
    rewrite Hself in Hcanon. subst k'. by rewrite Hk'.
Qed.

(** C3, as amended. On a hit that passes the four checks (the body
    draining without I/O failure), where every stored response header
    has a canonical name and at least one value, [serveHTTP] sets each
    stored header to its first stored value alone, leaves the other
    headers of the writer as they are, then passes the stored status
    code to [WriteHeader] and the stored body to [Write]; it returns
    nil, the handler is not run, and the [Potency] (cache included) is
    unchanged. The headers of the writer end the same in whatever order
    the stored headers are visited. *)
Theorem hit_replays_first_values p w r val clk (a : addr) saved h rest :
  validToken val ->
  read p (bareKey val) = Some a ->
  store p !! a = Some saved ->
  Method r = sr_method saved ->
  URL r = sr_url saved ->
  (forall hd, hd ∈ criticalHeaders ->
     Header_Get (sr_requestHeader saved) hd = Header_Get (Header r) hd) ->
  io_Copy sha256_New (Body r) = (h, rest, None) ->
  Sum256 (streamBytes (Body r)) = sr_sha256 saved ->
  (forall k vs, sr_responseHeader saved !! k = Some vs ->
     vs ≠ [] /\ CanonicalMIMEHeaderKey k = k) ->
  let replayed (w1 : W) :=
    forall k,
      rw_Header w1 !! k
      = match sr_responseHeader saved !! k with
        | Some (v :: _) => Some [v]
        | _ => rw_Header w !! k
        end in
  (exists w1,
     serveHTTP p w r val clk
     = mkOutcome (Done None) p
         (rw_Write (rw_WriteHeader w1 (sr_statusCode saved))
            (sr_responseBody saved)).1
         rest 0
     /\ replayHeader (map_to_list (sr_responseHeader saved)) w = (Returns, w1)
     /\ replayed w1)
  /\ (forall entries,
        entries ≡ₚ map_to_list (sr_responseHeader saved) ->
        exists w1, replayHeader entries w = (Returns, w1) /\ replayed w1).
Proof.
  intros Hval Hread Hsaved Hm Hu Hhd Hcopy Hsum Hstored replayed.
  split; [|intros entries Hperm; by apply replayHeader_lookup].
  apply invalidKey_false in Hval.
  rewrite (serveHTTP_hit _ _ _ _ _ _ _ Hval Hread Hsaved).
  destruct (replayHeader_lookup (sr_responseHeader saved)
              (map_to_list (sr_responseHeader saved)) w)
    as (w1 & Hreplay & Hw1); [done|done|].
  exists w1. split; [|done].
  unfold replay. cbn [firstHeaderMismatch criticalHeaders].
  rewrite !bool_decide_eq_false_2;
    [| intros Hne; apply Hne, Hhd; unfold criticalHeaders; repeat constructor
     | intros Hne; apply Hne, Hhd; unfold criticalHeaders; repeat constructor
     | auto | auto ].
  rewrite Hcopy. pose proof (io_Copy_written _ _ _ _ _ Hcopy) as Hw.
  unfold hash_Sum. rewrite Hw. cbn [written sha256_New app].
  rewrite bool_decide_eq_false_2 by auto.
  rewrite Hreplay. by destruct (rw_Write _ _).
Qed.

(** *** Misses *)

Lemma lockKey_held p key :
  inProgress p !! key = Some true -> lockKey p key = (p, Some ErrConflict).
Proof. unfold lockKey. by intros ->. Qed.

Lemma lockKey_free p key :
  inProgress p !! key ≠ Some true ->
  lockKey p key
  = (mkPotency (handler p) (lifetime p) (store p) (cache p) (cacheOldest p)
       (cacheNewest p) (<[key := true]> (inProgress p)), None).
Proof. unfold lockKey. by destruct (inProgress p !! key) as [[]|]. Qed.

Lemma execute_panics p w r key clk rwi' bi' :
  runHandler (handler p (Method r) (URL r) (Header r))
    (newResponseWriterIntercept w) (newBodyIntercept (Body r))
  = (Panics, rwi', bi') ->
  execute p w r key clk = mkOutcome Panicked p (rwi_dest rwi') (bi_source bi') 1.
Proof. unfold execute. by intros ->. Qed.

Lemma execute_returns p w r key clk rwi' bi' :
  wf p ->
  runHandler (handler p (Method r) (URL r) (Header r))
    (newResponseWriterIntercept w) (newBodyIntercept (Body r))
  = (Returns, rwi', bi') ->
  exists p3,
    removeExpired (now_sweep clk)
      (write_insert (now_write clk) (alloc p (savedAs r key (captureHeaders criticalHeaders (Header r)) rwi' bi')).1
         (length (store p)) (savedAs r key (captureHeaders criticalHeaders (Header r)) rwi' bi')) = Some p3
    /\ wf p3
    /\ execute p w r key clk
       = mkOutcome (Done None) p3 (rwi_dest rwi') (bi_source bi') 1.
Proof.
  intros Hwf Hrun. unfold execute. rewrite Hrun.
  destruct (write_total (now_write clk) (now_sweep clk) p
              (savedAs r key (captureHeaders criticalHeaders (Header r)) rwi' bi') Hwf eq_refl) as (p3 & Hwrite & Hsweep & Hwf3).
  exists p3. split; [done|]. split; [done|].
  change (alloc p _) with (alloc p (savedAs r key (captureHeaders criticalHeaders (Header r)) rwi' bi')).
  destruct (alloc p (savedAs r key (captureHeaders criticalHeaders (Header r)) rwi' bi')) as [p1 sr] eqn:Halloc.
  cbn [fst snd] in Hwrite. by rewrite Hwrite.
Qed.

(** From a well-formed state [execute] ends, in a well-formed state, with
    the in-progress set it started from. *)
Lemma execute_frame p w r key clk :
  wf p ->
  how (execute p w r key clk) ≠ Hung
  /\ wf (after (execute p w r key clk))
  /\ inProgress (after (execute p w r key clk)) = inProgress p
  /\ handlerCalls (execute p w r key clk) = 1%nat.
Proof.
  intros Hwf.
  destruct (runHandler (handler p (Method r) (URL r) (Header r))
              (newResponseWriterIntercept w) (newBodyIntercept (Body r)))
    as [[[] rwi'] bi'] eqn:Hrun.
  - destruct (execute_returns p w r key clk _ _ Hwf Hrun) as (p3 & Hsweep & Hwf3 & ->).
    cbn. repeat (split; [done|]). split; [|done].
    apply removeExpired_loop_frame in Hsweep as (_ & _ & _ & _ & -> & _). cbn.
    done.
  - rewrite (execute_panics _ _ _ _ _ _ _ Hrun). cbn. done.
Qed.

(** C6. On a miss with a well-formed key: if the key is in the in-progress
    set, [serveHTTP] fails with Conflict at once, the handler is not run
    and nothing changes; otherwise the key is put in the set, the handler
    runs with the key in it, and when the call ends, by return or by
    panic, the key is out of the set again and no other key of the set
    was touched. *)
Theorem miss_conflict_or_locked p w r val clk :
  wf p ->
  validToken val ->
  read p (bareKey val) = None ->
  let key := bareKey val in
  let o := serveHTTP p w r val clk in
  (inProgress p !! key = Some true ->
     o = mkOutcome (Done (Some (Conflict key))) p w (Body r) 0)
  /\ (inProgress p !! key ≠ Some true ->
      exists p1,
        lockKey p key = (p1, None)
        /\ inProgress p1 !! key = Some true
        /\ o = deferUnlock key (execute p1 w r key clk)
        /\ (how o = Done None \/ how o = Panicked)
        /\ handlerCalls o = 1%nat
        /\ inProgress (after o) !! key = None
        /\ forall k, k ≠ key -> inProgress (after o) !! k = inProgress p !! k).
Proof.
  intros Hwf Hval Hread key o. subst key o.
  apply invalidKey_false in Hval. rewrite serveHTTP_miss by done. split.
  - intros Hheld. by rewrite lockKey_held.
  - intros Hfree. rewrite lockKey_free by done.
    eexists. split; [done|]. cbn [inProgress].
    split; [by rewrite lookup_insert_eq|]. split; [done|].
    match goal with |- context [execute ?q _ _ _ _] => set (p1 := q) end.
    assert (Hwf1 : wf p1) by (destruct Hwf; by split).
    destruct (execute_frame p1 w r (bareKey val) clk Hwf1) as (Hend & _ & Hprog & Hcalls).
    rewrite deferUnlock_how, deferUnlock_calls, deferUnlock_after by done.
    split; [destruct (execute_how p1 w r (bareKey val) clk) as [?|[?|?]]; tauto|].
    split; [done|]. cbn [unlockKey inProgress]. rewrite Hprog. cbn [p1 inProgress].
    split; [by rewrite lookup_delete_eq|].
    intros k Hk. by rewrite lookup_delete_ne, lookup_insert_ne.
Qed.

Lemma captureHeaders_Get (current : HttpHeader) (h : string) :
  CanonicalMIMEHeaderKey "Accept" ≠ CanonicalMIMEHeaderKey "Authorization" ->
  h ∈ criticalHeaders ->
  Header_Get (captureHeaders criticalHeaders current) h = Header_Get current h.
Proof.
  intros Hne Hin. unfold captureHeaders, criticalHeaders in *. cbn [fold_left].
  apply elem_of_cons in Hin as [->|Hin]; [|apply list_elem_of_singleton in Hin as ->].
  - unfold Header_Get at 1, Header_Set.
    by rewrite lookup_insert_ne, lookup_insert_eq.
  - unfold Header_Get at 1, Header_Set. by rewrite lookup_insert_eq.
Qed.


(** *** Sequences of requests *)

Lemma entriesPreserved_refl p p' :
  cache p' = cache p -> store p' = store p -> entriesPreserved p p'.
Proof.
  intros Hc Hs. split; rewrite ?Hc, ?Hs.
  - intros k a obj Hk Ha. left. split; [done|]. by exists obj.
  - tauto.
Qed.

Lemma sameResult_set_newer (n : option addr) (obj : savedResult) :
  sameResult (set_newer n obj) obj.
Proof. by destruct obj. Qed.

Lemma entriesPreserved_write p (obj : savedResult) now p3 nowSweep :
  wf p ->
  cache p !! sr_key obj = None ->
  removeExpired nowSweep
    (write_insert now (alloc p obj).1 (length (store p)) obj) = Some p3 ->
  entriesPreserved p p3.
Proof.
  intros Hwf Hmiss Hsweep.
  apply removeExpired_loop_frame in Hsweep as (_ & _ & Hst & _ & _ & Hsub & _).
  split.
  - intros k a o Hk Ha.
    destruct (cache p3 !! k) as [b|] eqn:Hk3; [left|by right].
    apply Hsub in Hk3. cbn in Hk3.
    rewrite lookup_insert_ne in Hk3 by congruence.
    assert (b = a) as -> by congruence. split; [done|].
    rewrite Hst, write_insert_lookup by done.
    rewrite decide_False by (apply lookup_lt_Some in Ha; lia).
    case_decide; rewrite Ha; cbn; eauto using sameResult_set_newer.
    by exists o.
  - intros k b Hk3. apply Hsub in Hk3. cbn in Hk3.
    rewrite lookup_insert in Hk3. case_decide as Hk.
    + injection Hk3 as <-. subst k. right. split; [done|].
      by apply lookup_ge_None_2.
    + by left.
Qed.

(** A request from a well-formed state ends, in a well-formed state, and
    preserves the entries. *)
Lemma serveHTTP_step p w r val clk :
  wf p ->
  how (serveHTTP p w r val clk) ≠ Hung
  /\ wf (after (serveHTTP p w r val clk))
  /\ entriesPreserved p (after (serveHTTP p w r val clk)).
Proof.
  intros Hwf. destruct (invalidKey val) eqn:Hval.
  { rewrite serveHTTP_invalid by done. cbn.
    split; [done|]. split; [done|]. by apply entriesPreserved_refl. }
  destruct (read p (bareKey val)) as [a|] eqn:Hread.
  { destruct (store p !! a) as [saved|] eqn:Hsaved.
    - rewrite (serveHTTP_hit _ _ _ _ _ _ _ Hval Hread Hsaved).
      destruct (replay_frame p w r saved) as (-> & _ & Hend & _).
      split; [done|]. split; [done|]. by apply entriesPreserved_refl.
    - unfold serveHTTP. rewrite Hval, Hread, Hsaved. cbn.
      split; [done|]. split; [done|]. by apply entriesPreserved_refl. }
  rewrite serveHTTP_miss by done.
  destruct (inProgress p !! bareKey val) as [[]|] eqn:Hprog.
  { rewrite lockKey_held by done. cbn.
    split; [done|]. split; [done|]. by apply entriesPreserved_refl. }
  all: rewrite lockKey_free by congruence.
  all: match goal with |- context [execute ?q _ _ _ _] => set (p1 := q) end.
  all: assert (Hwf1 : wf p1) by (destruct Hwf; by split).
  all: destruct (execute_frame p1 w r (bareKey val) clk Hwf1) as (Hend & Hwf' & _).
  all: rewrite deferUnlock_how, deferUnlock_after by done.
  all: split; [done|]; split; [by apply wf_unlockKey|].
  all: destruct (runHandler (handler p1 (Method r) (URL r) (Header r))
                   (newResponseWriterIntercept w) (newBodyIntercept (Body r)))
         as [[[] rwi'] bi'] eqn:Hrun.
  all: try (rewrite (execute_panics _ _ _ _ _ _ _ Hrun);
            by apply entriesPreserved_refl).
  all: destruct (execute_returns p1 w r (bareKey val) clk _ _ Hwf1 Hrun)
         as (p3 & Hsweep & _ & ->).
  all: apply entriesPreserved_write in Hsweep; [|done|done].
  all: destruct Hsweep as [Hkeep Hnew]; split; cbn; eauto.
Qed.

Lemma ServeHTTP_step p w r clk :
  wf p ->
  how (ServeHTTP p w r clk) ≠ Hung
  /\ wf (after (ServeHTTP p w r clk))
  /\ entriesPreserved p (after (ServeHTTP p w r clk)).
Proof.
  intros Hwf. unfold ServeHTTP. case_bool_decide.
  - unfold forward. destruct (runHandler _ w (Body r)) as [[[] w'] b']; cbn;
      (split; [done|]); (split; [done|]); by apply entriesPreserved_refl.
  - destruct (serveHTTP_step p w r (Header_Get (Header r) "Idempotency-Key") clk Hwf)
      as (Hend & Hwf' & Hpres).
    destruct (how (serveHTTP p w r _ clk)) as [[e|]| |] eqn:Hhow; cbn;
      rewrite ?Hhow; done.
Qed.

Lemma step_wf p p' : wf p -> step p p' -> wf p'.
Proof.
  intros Hwf Hstep. destruct Hstep as [p d|p w r clk Hend].
  - by apply wf_SetLifetime.
  - by apply ServeHTTP_step.
Qed.

Lemma reachable_wf p : reachable p -> wf p.
Proof.
  induction 1 as [h|p p' _ IH Hstep]; [apply wf_NewPotency|].
  by apply (step_wf p).
Qed.

(** X18. Requests served one after another never overwrite an entry.
    Along every sequence of whole calls from a new [Potency], no two of
    them overlapping, each call keeps every entry of the map on the
    object it was on, unchanged but for its chain link, unless the entry
    is removed; an entry that is new after the call is on an object that
    was allocated by the call, under a key that was absent before it. A
    hit leaves the [Potency] as it was without running the handler, and
    every request ends. *)
Theorem sequential_calls_never_overwrite p p' :
  reachable p ->
  step p p' ->
  (forall k a obj,
     cache p !! k = Some a -> store p !! a = Some obj ->
     (cache p' !! k = Some a
      /\ exists obj', store p' !! a = Some obj' /\ sameResult obj' obj)
     \/ cache p' !! k = None)
  /\ (forall k b,
        cache p' !! k = Some b ->
        cache p !! k = Some b \/ (cache p !! k = None /\ store p !! b = None))
  /\ (forall w r clk a,
        validToken (Header_Get (Header r) "Idempotency-Key") ->
        read p (bareKey (Header_Get (Header r) "Idempotency-Key")) = Some a ->
        after (ServeHTTP p w r clk) = p
        /\ handlerCalls (ServeHTTP p w r clk) = 0%nat)
  /\ (forall w r clk, how (ServeHTTP p w r clk) ≠ Hung).
Proof.
  intros Hreach Hstep. apply reachable_wf in Hreach as Hwf.
  assert (Hpres : entriesPreserved p p').
  { destruct Hstep as [p d|p w r clk Hend].
    - by apply entriesPreserved_refl.
    - by apply ServeHTTP_step. }
  destruct Hpres as [Hkeep Hnew].
  split_and!; [done|done| |intros; by apply ServeHTTP_step].
  intros w r clk a Hval Hread.
  assert (Hne : Header_Get (Header r) "Idempotency-Key" ≠ ""%string).
  { intros Heq. rewrite Heq in Hval. destruct Hval as [Hlen _]. cbn in Hlen. lia. }
  apply invalidKey_false in Hval.
  pose proof (wf_cache _ Hwf _ _ Hread) as Hlt.
  apply lookup_lt_is_Some_2 in Hlt as [saved Hsaved].
  unfold ServeHTTP. rewrite bool_decide_eq_false_2 by done.
  rewrite (serveHTTP_hit _ _ _ _ _ _ _ Hval Hread Hsaved).
  destruct (replay_frame p w r saved) as (Hafter & Hcalls & _).
  destruct (how (replay p w r saved)) as [[e|]| |] eqn:Hhow; cbn; done.
Qed.

End DispatcherProperties.

(** * Further properties *)

(** ** The interceptors are transparent *)

Section TapTransparency.
Context {W : Type} `{!ResponseWriter W}.

Lemma tapRun_buf_dest (ops : list tapOp) (rwi : responseWriterIntercept W) :
  rwi_buf (tapRun ops rwi) = rwi_buf rwi ++ tapWrites ops
  /\ rwi_dest (tapRun ops rwi) = fold_left destStep ops (rwi_dest rwi).
Proof.
  revert rwi. induction ops as [|op ops IH]; intros rwi.
  - cbn. by rewrite app_nil_r.
  - unfold tapRun in *. cbn [fold_left].
    destruct (IH (tapStep rwi op)) as [-> ->].
    destruct op as [f|data|c]; cbn; try done.
    unfold rwi_Write, tapWrites. cbn.
    destruct (rw_Write (rwi_dest rwi) data). cbn. by rewrite app_assoc.
Qed.

(** X1. Whatever operations are issued on a fresh response interceptor,
    its buffer holds the payloads of all [Write] calls in order, whether
    or not the writer behind it accepted them, and that writer has
    received exactly the same operations. *)
Theorem rwi_buffers_and_forwards (ops : list tapOp) (dest : W) :
  rwi_buf (tapRun ops (newResponseWriterIntercept dest)) = tapWrites ops
  /\ rwi_dest (tapRun ops (newResponseWriterIntercept dest))
     = fold_left destStep ops dest.
Proof. apply (tapRun_buf_dest ops (newResponseWriterIntercept dest)). Qed.

Context {S : Type} `{!ReadCloser S}.

Lemma runHandler_tapped (h : handlerProg) :
  ReaderContract S ->
  assertsNothing h ->
  forall (rwi : responseWriterIntercept W) (bi : bodyIntercept S),
  exists rwi' bi',
    runHandler h rwi bi
    = ((runHandler h (rwi_dest rwi) (bi_source bi)).1.1, rwi', bi')
    /\ rwi_dest rwi' = (runHandler h (rwi_dest rwi) (bi_source bi)).1.2
    /\ bi_source bi' = (runHandler h (rwi_dest rwi) (bi_source bi)).2.
Proof.
  intros Hcontract.
  induction h as [| |p k IH|k IH|k IH|f k IH|c k IH|data k IH|iface k _|iface k _];
    intros Hplain rwi bi; cbn [assertsNothing] in Hplain; try done.
  - by exists rwi, bi.
  - by exists rwi, bi.
  - cbn. unfold bi_Read.
    destruct (rc_Read (bi_source bi) p) as [[s' r]|] eqn:Hread;
      [|by exists rwi, bi].
    destruct (Hcontract _ _ _ _ Hread) as [Hlo Hhi].
    unfold slice_to.
    rewrite (proj2 (Z.leb_le _ _) Hlo), (proj2 (Z.leb_le _ _) Hhi). cbn.
    apply (IH r (Hplain r) rwi (mkBI s' _)).
  - cbn. unfold bi_Close. destruct (rc_Close (bi_source bi)) as [s' err].
    apply (IH err (Hplain err) rwi (mkBI s' _)).
  - cbn. apply (IH _ (Hplain _) rwi bi).
  - cbn. apply (IH Hplain (rwi_mutateHeader f rwi) bi).
  - cbn. apply (IH Hplain (rwi_WriteHeader rwi c) bi).
  - cbn. unfold rwi_Write. destruct (rw_Write (rwi_dest rwi) data) as [w' res].
    apply (IH res (Hplain res) (mkRWI w' _ _) bi).
Qed.

(** X2. The interceptors hide nothing but the type of what they wrap. A
    handler that reaches its writer through Header, Write and WriteHeader
    and its body through Read and Close only, with no type assertion on
    either, run on the two interceptors over a body that honours the
    contract of [io.Reader], ends the way it ends when it runs on the
    writer and the body themselves, and leaves that writer and that body
    in the same state: every call it makes is answered as the writer or
    the body answers it. An assertion to an interface with a method outside
    Header, Write and WriteHeader (outside Read and Close for the body)
    fails behind the interceptor, also where it succeeds on what the
    interceptor wraps. *)
Theorem interception_transparent_to_calls (h : handlerProg) (w : W) (b : S) :
  ReaderContract S ->
  assertsNothing h ->
  (exists rwi' bi',
     runHandler h (newResponseWriterIntercept w) (newBodyIntercept b)
     = ((runHandler h w b).1.1, rwi', bi')
     /\ rwi_dest rwi' = (runHandler h w b).1.2
     /\ bi_source bi' = (runHandler h w b).2)
  /\ (forall iface k,
        implements responseWriterIntercept_methods iface = false ->
        implements (rw_methods (W:=W)) iface = true ->
        runHandler (HAssertWriter iface k) (newResponseWriterIntercept w)
          (newBodyIntercept b)
        = runHandler (k false) (newResponseWriterIntercept w) (newBodyIntercept b)
        /\ runHandler (HAssertWriter iface k) w b = runHandler (k true) w b)
  /\ (forall iface k,
        implements bodyIntercept_methods iface = false ->
        implements (rc_methods (S:=S)) iface = true ->
        runHandler (HAssertBody iface k) (newResponseWriterIntercept w)
          (newBodyIntercept b)
        = runHandler (k false) (newResponseWriterIntercept w) (newBodyIntercept b)
        /\ runHandler (HAssertBody iface k) w b = runHandler (k true) w b).
Proof.
  intros Hcontract Hplain. split_and!.
  - apply (runHandler_tapped h Hcontract Hplain (newResponseWriterIntercept w)
             (newBodyIntercept b)).
  - intros iface k Hhidden Hhas. cbn [runHandler rw_methods rwi_ResponseWriter].
    by rewrite Hhidden, Hhas.
  - intros iface k Hhidden Hhas. cbn [runHandler rc_methods bi_ReadCloser].
    by rewrite Hhidden, Hhas.
Qed.

End TapTransparency.

Lemma body_ReaderContract : ReaderContract body.
Proof.
  intros b b' p r. cbn. intros [= Hread]. revert Hread. unfold body_Read.
  destruct b as [|[c e] rest].
  - intros [= <- <-]. cbn. lia.
  - case_match eqn:Hfit; intros [= <- <-]; cbn.
    + rewrite length_app. lia.
    + apply Nat.leb_gt in Hfit. rewrite length_take. lia.
Qed.

(** ** Key syntax, both ways *)

Lemma substring_prefix (k rest : string) :
  substring 0 (String.length k) (k +:+ rest) = k.
Proof.
  induction k as [|a k IH].
  - by destruct rest.
  - change (String a k +:+ rest) with (String a (k +:+ rest)). cbn. by rewrite IH.
Qed.

Lemma length_append (s1 s2 : string) :
  String.length (s1 +:+ s2) = (String.length s1 + String.length s2)%nat.
Proof.
  induction s1 as [|a s1 IH]; [done|].
  change (String a s1 +:+ s2) with (String a (s1 +:+ s2)). cbn. by rewrite IH.
Qed.

Lemma get_last_append (k : string) (c : ascii) :
  String.get (String.length k) (k +:+ String c EmptyString) = Some c.
Proof.
  induction k as [|a k IH]; [done|].
  change (String a k +:+ String c EmptyString)
    with (String a (k +:+ String c EmptyString)).
  exact IH.
Qed.

(** X3. Wrapping any key in quote marks gives a value of valid syntax
    whose bare key is the key itself, quote marks inside the key
    included; so [serveHTTP] never answers InvalidKey to a quoted key. *)
Theorem quoted_key_roundtrip (key : string) :
  validToken (quoted key) /\ bareKey (quoted key) = key
  /\ invalidKey (quoted key) = false.
Proof.
  assert (Hlen : String.length (quoted key) = Datatypes.S (Datatypes.S (String.length key))).
  { unfold quoted, dquoteStr.
    change (String.length (String dquote (key +:+ String dquote EmptyString))
            = Datatypes.S (Datatypes.S (String.length key))).
    cbn [String.length]. rewrite length_append. cbn. lia. }
  assert (Hvalid : validToken (quoted key)).
  { split; [lia|]. split; [done|]. rewrite Hlen.
    cbn [Nat.sub]. rewrite ?Nat.sub_0_r.
    exact (get_last_append key dquote). }
  split; [done|]. split; [|by apply invalidKey_false].
  unfold bareKey. rewrite Hlen. cbn [Nat.sub]. rewrite Nat.sub_0_r.
  exact (substring_prefix key dquoteStr).
Qed.

(** ** The in-progress set *)

(** X4. Taking and releasing a key: a key that is not held can be taken,
    cannot be taken a second time, and can be taken again once released;
    releasing gives back the set as it was before the key was taken;
    other keys are not concerned; and after a release the key is free
    whether or not it was held. *)
Theorem lockKey_unlockKey (p : Potency) (key : string) :
  (inProgress p !! key ≠ Some true ->
     (lockKey p key).2 = None
     /\ (lockKey (lockKey p key).1 key).2 = Some ErrConflict
     /\ (lockKey (unlockKey (lockKey p key).1 key) key).2 = None
     /\ (inProgress p !! key = None -> unlockKey (lockKey p key).1 key = p))
  /\ (forall k2, k2 ≠ key ->
        (lockKey (lockKey p key).1 k2).2 = (lockKey p k2).2
        /\ (lockKey (unlockKey p key) k2).2 = (lockKey p k2).2)
  /\ (lockKey (unlockKey p key) key).2 = None.
Proof.
  split_and!.
  - intros Hfree. rewrite lockKey_free by done. cbn [fst snd]. split_and!.
    + done.
    + rewrite lockKey_held; [done|]. cbn. by rewrite lookup_insert_eq.
    + rewrite lockKey_free; [done|]. cbn. by rewrite lookup_delete_eq.
    + intros Hnone. destruct p. unfold unlockKey. cbn in *. f_equal.
      by apply delete_insert_id.
  - intros k2 Hk2. split.
    + destruct (decide (inProgress p !! key = Some true)) as [Hheld|Hfree].
      * by rewrite (lockKey_held p key) by done.
      * rewrite (lockKey_free p key) by done. cbn [fst].
        unfold lockKey. cbn [inProgress]. rewrite lookup_insert_ne by done.
        by destruct (default false (inProgress p !! k2)).
    + unfold lockKey, unlockKey. cbn [inProgress].
      rewrite lookup_delete_ne by done.
      by destruct (default false (inProgress p !! k2)).
  - unfold lockKey, unlockKey. cbn [inProgress]. by rewrite lookup_delete_eq.
Qed.

(** ** The sweep *)

Lemma removeExpired_loop_deletes_run (cutoff : Z) (st : list savedResult)
    (a c : addr) :
  onExpiredRun cutoff st a c ->
  forall fuel p p' it,
    store p = st ->
    removeExpired_loop fuel cutoff (Some a) p = Some p' ->
    st !! c = Some it ->
    cache p' !! sr_key it = None.
Proof.
  induction 1 as [a ita Ha Hold|a ita b c Ha Hold Hb Hrun IH];
    intros fuel p p' it Hst Hloop Hc; subst st;
    destruct fuel as [|fuel]; cbn [removeExpired_loop] in Hloop;
    rewrite Ha, (proj2 (Z.ltb_lt _ _) Hold) in Hloop; try done.
  - assert (it = ita) as -> by congruence.
    apply removeExpired_loop_frame in Hloop as (_ & _ & _ & _ & _ & Hsub & _).
    destruct (cache p' !! sr_key ita) as [x|] eqn:Hx; [|done].
    apply Hsub in Hx. cbn in Hx. by rewrite lookup_delete_eq in Hx.
  - rewrite Hb in Hloop. by apply (IH fuel (expire a ita p) p' it).
Qed.

Lemma removeExpired_loop_keeps (fuel : nat) (cutoff : Z) (iter : option addr)
    (p p' : Potency) (k : string) :
  removeExpired_loop fuel cutoff iter p = Some p' ->
  (forall a c it,
     iter = Some a -> onExpiredRun cutoff (store p) a c ->
     store p !! c = Some it -> sr_key it ≠ k) ->
  cache p' !! k = cache p !! k.
Proof.
  revert iter p. induction fuel as [|fuel IH]; intros iter p;
    cbn [removeExpired_loop].
  all: destruct iter as [a|]; [|by intros [= <-]].
  all: destruct (store p !! a) as [it|] eqn:Hit; [|done].
  all: destruct (sr_added it <? cutoff)%Z eqn:Hold; [|by intros [= <-]].
  1: done.
  apply Z.ltb_lt in Hold. intros Hloop Hother.
  rewrite (IH _ _ Hloop).
  - cbn. rewrite lookup_delete_ne; [done|].
    apply (Hother a a it eq_refl); [by eapply run_here|done].
  - cbn. intros b c itc Hb Hrun Hc.
    apply (Hother a c itc eq_refl); [by eapply run_next|done].
Qed.

(** X5. What the sweep does to the map, exactly: it deletes the keys
    carried by the objects of the chain from [cacheOldest] on, as long
    as these objects are older than the cutoff, and leaves every other
    key as it is. *)
Theorem sweep_deletes_expired_run (now : Z) (p p' : Potency) (k : string) :
  removeExpired now p = Some p' ->
  (expiredKey (cutoffAt now (lifetime p)) p k -> cache p' !! k = None)
  /\ (~ expiredKey (cutoffAt now (lifetime p)) p k ->
      cache p' !! k = cache p !! k).
Proof.
  unfold removeExpired. intros Hsweep. split.
  - intros (a & c & it & Ha & Hrun & Hc & <-). rewrite Ha in Hsweep.
    by eapply removeExpired_loop_deletes_run.
  - intros Hnot. apply (removeExpired_loop_keeps _ _ _ _ _ _ Hsweep).
    intros a c it Ha Hrun Hc Hk. apply Hnot. by exists a, c, it.
Qed.

(** ** More on the dispatcher *)

Section MoreDispatcherProperties.
Context `{!GoLibrary} {W : Type} `{!ResponseWriter W} `{!ErrorWriter W}.

Implicit Types (p : Potency) (w : W) (r : Request) (val key : string)
  (clk : clock) (saved : savedResult).

(** The two ways a request can leave the cache of a [Potency]: as it
    was, or with one object allocated and written on a state that differs
    from it only in the in-progress set, the key of the object having
    been absent. *)
Lemma serveHTTP_cases p w r val clk :
  wf p ->
  (store (after (serveHTTP p w r val clk)) = store p
   /\ cache (after (serveHTTP p w r val clk)) = cache p
   /\ cacheOldest (after (serveHTTP p w r val clk)) = cacheOldest p
   /\ cacheNewest (after (serveHTTP p w r val clk)) = cacheNewest p
   /\ lifetime (after (serveHTTP p w r val clk)) = lifetime p)
  \/ exists p1 obj p3,
       wf p1 /\ store p1 = store p /\ cache p1 = cache p
       /\ cacheOldest p1 = cacheOldest p /\ cacheNewest p1 = cacheNewest p
       /\ sr_newer obj = None /\ cache p !! sr_key obj = None
       /\ removeExpired (now_sweep clk)
            (write_insert (now_write clk) (alloc p1 obj).1 (length (store p1)) obj)
          = Some p3
       /\ after (serveHTTP p w r val clk) = unlockKey p3 (sr_key obj).
Proof.
  intros Hwf. destruct (invalidKey val) eqn:Hval.
  { left. by rewrite serveHTTP_invalid. }
  destruct (read p (bareKey val)) as [a|] eqn:Hread.
  { left. destruct (store p !! a) as [saved|] eqn:Hsaved.
    - rewrite (serveHTTP_hit _ _ _ _ _ _ _ Hval Hread Hsaved).
      by destruct (replay_frame p w r saved) as (-> & _).
    - unfold serveHTTP. by rewrite Hval, Hread, Hsaved. }
  rewrite serveHTTP_miss by done.
  destruct (decide (inProgress p !! bareKey val = Some true)) as [Hheld|Hfree].
  { left. by rewrite lockKey_held. }
  rewrite lockKey_free by done.
  match goal with |- context [execute ?q _ _ _ _] => set (p1 := q) end.
  assert (Hwf1 : wf p1) by (destruct Hwf; by split).
  destruct (execute_frame p1 w r (bareKey val) clk Hwf1) as (Hend & _).
  rewrite deferUnlock_after by done.
  destruct (runHandler (handler p1 (Method r) (URL r) (Header r))
              (newResponseWriterIntercept w) (newBodyIntercept (Body r)))
    as [[[] rwi'] bi'] eqn:Hrun.
  - right.
    destruct (execute_returns p1 w r (bareKey val) clk _ _ Hwf1 Hrun)
      as (p3 & Hsweep & _ & ->).
    exists p1, (savedAs r (bareKey val)
                  (captureHeaders criticalHeaders (Header r)) rwi' bi'), p3.
    by split_and!.
  - left. by rewrite (execute_panics _ _ _ _ _ _ _ Hrun).
Qed.

Lemma ServeHTTP_after p w r clk :
  after (ServeHTTP p w r clk) = p
  \/ after (ServeHTTP p w r clk)
     = after (serveHTTP p w r (Header_Get (Header r) "Idempotency-Key") clk).
Proof.
  unfold ServeHTTP. case_bool_decide.
  - left. unfold forward. by destruct (runHandler _ w (Body r)) as [[[] ?] ?].
  - right. by destruct (how (serveHTTP p w r _ clk)) as [[e|]| |].
Qed.

Lemma keyed_write p1 (obj : savedResult) now nowS p3 :
  wf p1 -> keyed p1 ->
  removeExpired nowS (write_insert now (alloc p1 obj).1 (length (store p1)) obj)
  = Some p3 ->
  keyed p3.
Proof.
  intros Hwf Hkeyed Hsweep k a Hk.
  apply removeExpired_loop_frame in Hsweep as (_ & _ & Hst & _ & _ & Hsub & _).
  apply Hsub in Hk. cbn in Hk. rewrite Hst, write_insert_lookup by done.
  rewrite lookup_insert in Hk. case_decide as Hkey.
  - injection Hk as <-. rewrite decide_True by done. subst k. by eexists.
  - destruct (Hkeyed _ _ Hk) as (o & Ho & Hko).
    rewrite decide_False by (apply lookup_lt_Some in Ho; lia).
    rewrite Ho. case_decide; cbn; eexists; (split; [reflexivity|]);
      [by destruct o|done].
Qed.

Lemma chained_write p1 (obj : savedResult) now nowS p3 :
  wf p1 -> chained p1 -> sr_newer obj = None ->
  removeExpired nowS (write_insert now (alloc p1 obj).1 (length (store p1)) obj)
  = Some p3 ->
  chained p3.
Proof.
  intros Hwf (Hlinks & Hnewest & Hempty) Hnone Hsweep.
  apply removeExpired_loop_frame in Hsweep as (_ & _ & Hst & Hnw & _ & _ & Hold).
  assert (Hlen : length (store p3) = Datatypes.S (length (store p1)))
    by (rewrite Hst; apply write_insert_length).
  split_and!.
  - intros a o. rewrite Hlen, Hst, write_insert_lookup by done.
    case_decide as Ha.
    + subst a. intros [= <-]. cbn. rewrite Hnone. by rewrite decide_False by lia.
    + rewrite Hnewest. intros Ho.
      assert (Hlt : (a < length (store p1))%nat).
      { destruct (decide (Some a = Some a)); [|done].
        case_decide; [destruct (store p1 !! a) eqn:E; [|done]|];
          eapply lookup_lt_Some; eauto. }
      rewrite decide_True by lia.
      destruct (length (store p1)) as [|n] eqn:Hn; [lia|].
      case_decide as Hlast.
      * injection Hlast as <-.
        destruct (store p1 !! n) as [o'|]; [|done]. by injection Ho as <-.
      * rewrite (Hlinks _ _ Ho). rewrite decide_True; [done|].
        assert (a ≠ n) by congruence. lia.
  - rewrite Hnw, Hlen. done.
  - split; [|intros Hnil; by rewrite Hnil in Hlen].
    intros Hnil. exfalso.
    destruct Hold as [Hold|(b & Hold & _)]; [|congruence].
    rewrite Hnil in Hold. cbn in Hold. by destruct (cacheOldest p1).
Qed.

Lemma ServeHTTP_keyed_chained p w r clk :
  wf p -> keyed p -> chained p ->
  keyed (after (ServeHTTP p w r clk)) /\ chained (after (ServeHTTP p w r clk)).
Proof.
  intros Hwf Hkeyed Hchained.
  destruct (ServeHTTP_after p w r clk) as [->| ->]; [done|].
  destruct (serveHTTP_cases p w r (Header_Get (Header r) "Idempotency-Key") clk Hwf)
    as [(Hst & Hc & Ho & Hn & _)|(p1 & obj & p3 & Hwf1 & Hst & Hc & Ho & Hn & Hnone
                                     & _ & Hsweep & ->)].
  - split.
    + intros k a. rewrite Hc, Hst. apply Hkeyed.
    + unfold chained. rewrite Hst, Ho, Hn. apply Hchained.
  - assert (Hk1 : keyed p1) by (intros k a; rewrite Hc, Hst; apply Hkeyed).
    assert (Hc1 : chained p1) by (unfold chained; rewrite Hst, Ho, Hn; apply Hchained).
    split.
    + by apply (keyed_write p1 obj (now_write clk) (now_sweep clk) p3).
    + by apply (chained_write p1 obj (now_write clk) (now_sweep clk) p3).
Qed.

Lemma reachable_keyed_chained p : reachable p -> keyed p /\ chained p.
Proof.
  induction 1 as [h|p p' Hreach [Hk Hc] Hstep].
  - split; [intros k a Hk; cbn in Hk; by rewrite lookup_empty in Hk|].
    by split_and!.
  - apply reachable_wf in Hreach. destruct Hstep as [p d|p w r clk Hend].
    + done.
    + by apply ServeHTTP_keyed_chained.
Qed.

(** X6. In every state reached from a new [Potency], an entry of the
    map is on an object that carries the key of the entry, so that
    [read] gives back what was stored under that very key, and two keys
    never share an object. *)
Theorem read_returns_own_key p (k : string) (a : addr) :
  reachable p ->
  read p k = Some a ->
  (exists obj, store p !! a = Some obj /\ sr_key obj = k)
  /\ (forall k', read p k' = Some a -> k' = k).
Proof.
  intros Hreach Hk. destruct (reachable_keyed_chained p Hreach) as [Hkeyed _].
  destruct (Hkeyed _ _ Hk) as (obj & Hobj & Hkey). split; [by exists obj|].
  intros k' Hk'. destruct (Hkeyed _ _ Hk') as (obj' & Hobj' & Hkey'). congruence.
Qed.

(** X7. In every state reached from a new [Potency], the chain holds
    every object ever allocated, in the order of allocation: each object
    is linked to the next one, the last to none, [cacheNewest] is the
    last object, and [cacheOldest] is nil only as long as nothing was
    ever inserted. *)
Theorem chain_in_insertion_order p :
  reachable p ->
  (forall a obj, store p !! a = Some obj ->
     sr_newer obj
     = if decide (Datatypes.S a < length (store p))%nat
       then Some (Datatypes.S a) else None)
  /\ cacheNewest p
     = match length (store p) with
       | O => None
       | Datatypes.S n => Some n
       end
  /\ (cacheOldest p = None <-> store p = []).
Proof. intros Hreach. by destruct (reachable_keyed_chained p Hreach) as [_ Hc]. Qed.

(** X8. A step adds at most one entry to the map: [NumCached] grows by
    one at most, and [SetLifetime] leaves it as it is. *)
Theorem NumCached_grows_by_one p p' :
  reachable p ->
  step p p' ->
  (NumCached p' <= Datatypes.S (NumCached p))%nat
  /\ (forall d, NumCached (SetLifetime p d) = NumCached p).
Proof.
  intros Hreach Hstep. split; [|done]. apply reachable_wf in Hreach as Hwf.
  unfold NumCached. destruct Hstep as [p d|p w r clk Hend]; [cbn; lia|].
  destruct (ServeHTTP_after p w r clk) as [->| ->]; [lia|].
  destruct (serveHTTP_cases p w r (Header_Get (Header r) "Idempotency-Key") clk Hwf)
    as [(_ & -> & _)|(p1 & obj & p3 & Hwf1 & Hst & Hc & _ & _ & _ & Hmiss
                       & Hsweep & ->)]; [lia|].
  apply removeExpired_loop_frame in Hsweep as (_ & _ & _ & _ & _ & Hsub & _).
  cbn [unlockKey cache].
  etransitivity; [apply (map_subseteq_size _ (<[sr_key obj := length (store p1)]> (cache p)))|].
  - apply map_subseteq_spec. intros k a Hk. apply Hsub in Hk. cbn in Hk.
    by rewrite Hc in Hk.
  - by rewrite map_size_insert_None.
Qed.

Lemma replay_error p w r saved err :
  how (replay p w r saved) = Done (Some err) ->
  sink (replay p w r saved) = w.
Proof.
  unfold replay. repeat case_bool_decide; try done.
  destruct (firstHeaderMismatch _ _ _) as [e|]; [done|].
  destruct (io_Copy sha256_New (Body r)) as [[h rest] [e|]]; [done|].
  case_bool_decide; [done|].
  destruct (replayHeader _ w) as [[] w1]; [|done].
  by destruct (rw_Write _ _).
Qed.

Lemma serveHTTP_error p w r val clk err :
  how (serveHTTP p w r val clk) = Done (Some err) ->
  after (serveHTTP p w r val clk) = p
  /\ sink (serveHTTP p w r val clk) = w
  /\ handlerCalls (serveHTTP p w r val clk) = 0%nat.
Proof.
  destruct (invalidKey val) eqn:Hval.
  { by rewrite serveHTTP_invalid. }
  destruct (read p (bareKey val)) as [a|] eqn:Hread.
  { destruct (store p !! a) as [saved|] eqn:Hsaved.
    - rewrite (serveHTTP_hit _ _ _ _ _ _ _ Hval Hread Hsaved). intros Herr.
      destruct (replay_frame p w r saved) as (Hafter & Hcalls & _).
      by rewrite (replay_error _ _ _ _ _ Herr).
    - unfold serveHTTP. by rewrite Hval, Hread, Hsaved. }
  rewrite serveHTTP_miss by done.
  destruct (decide (inProgress p !! bareKey val = Some true)) as [Hheld|Hfree].
  { by rewrite lockKey_held. }
  rewrite lockKey_free by done. rewrite deferUnlock_how.
  match goal with |- context [execute ?q _ _ _ _] => set (p1 := q) end.
  destruct (execute_how p1 w r (bareKey val) clk) as [->|[->| ->]]; done.
Qed.

(** X9. When [ServeHTTP] ends with an error (bad key, mismatch, failed
    body, conflict), the [Potency] is as it was, the handler was not
    run, and the only thing the response writer has received is the
    error itself, through [jsrest.WriteError]: nothing of a response was
    written before the error was found. *)
Theorem error_leaves_no_trace p w r clk err :
  how (ServeHTTP p w r clk) = Done (Some err) ->
  after (ServeHTTP p w r clk) = p
  /\ sink (ServeHTTP p w r clk) = WriteError w err
  /\ handlerCalls (ServeHTTP p w r clk) = 0%nat.
Proof.
  unfold ServeHTTP. case_bool_decide.
  { unfold forward. by destruct (runHandler _ w (Body r)) as [[[] ?] ?]. }
  destruct (how (serveHTTP p w r _ clk)) as [[e|]| |] eqn:Hhow; cbn.
  - intros [= <-]. by destruct (serveHTTP_error _ _ _ _ _ _ Hhow) as (-> & -> & ->).
  - by rewrite Hhow.
  - by rewrite Hhow.
  - by rewrite Hhow.
Qed.

(** X10. A first request under a well-formed key (miss, key not in
    progress), to a handler that reaches its writer and its body through
    the methods of [http.ResponseWriter] and [io.ReadCloser] only, with no
    type assertion on either, is served as if the dispatcher were not
    there: it ends the way
    the call of the handler on the writer of the caller and the body of
    the request ends, with that writer and that body in the states that
    call leaves them in, the handler having run once. *)
Theorem miss_serves_like_direct_call p w r val clk :
  wf p ->
  validToken val ->
  read p (bareKey val) = None ->
  inProgress p !! bareKey val ≠ Some true ->
  assertsNothing (handler p (Method r) (URL r) (Header r)) ->
  exists e w' b',
    runHandler (handler p (Method r) (URL r) (Header r)) w (Body r) = (e, w', b')
    /\ how (serveHTTP p w r val clk)
       = match e with Returns => Done None | Panics => Panicked end
    /\ sink (serveHTTP p w r val clk) = w'
    /\ unread (serveHTTP p w r val clk) = b'
    /\ handlerCalls (serveHTTP p w r val clk) = 1%nat.
Proof.
  intros Hwf Hval Hread Hfree Hplain. apply invalidKey_false in Hval.
  rewrite serveHTTP_miss, lockKey_free by done.
  match goal with |- context [execute ?q _ _ _ _] => set (p1 := q) end.
  assert (Hwf1 : wf p1) by (destruct Hwf; by split).
  destruct (runHandler_tapped (handler p (Method r) (URL r) (Header r))
              body_ReaderContract Hplain (newResponseWriterIntercept w)
              (newBodyIntercept (Body r))) as (rwi' & bi' & Hrun & Hdest & Hsrc).
  cbn [rwi_dest bi_source newResponseWriterIntercept newBodyIntercept] in *.
  destruct (runHandler (handler p (Method r) (URL r) (Header r)) w (Body r))
    as [[e w'] b'] eqn:Hplainrun.
  exists e, w', b'. split; [done|].
  cbn [fst snd] in *. destruct e.
  - destruct (execute_returns p1 w r (bareKey val) clk rwi' bi' Hwf1 Hrun)
      as (p3 & _ & _ & ->).
    unfold deferUnlock. cbn. by rewrite Hdest, Hsrc.
  - rewrite (execute_panics p1 w r (bareKey val) clk rwi' bi' Hrun).
    unfold deferUnlock. cbn. by rewrite Hdest, Hsrc.
Qed.

(** X11. The answer to a hit depends on the request only through its
    method, its URL, the first values of Accept and Authorization and its
    body: other headers, the clock and the lifetime play no part, so an
    entry is replayed however old it is as long as it is in the map. *)
Theorem hit_depends_on_fingerprint_only p w r r' val clk clk' (a : addr) (d : Z) :
  read p (bareKey val) = Some a ->
  Method r = Method r' ->
  URL r = URL r' ->
  Body r = Body r' ->
  (forall hd, hd ∈ criticalHeaders ->
     Header_Get (Header r) hd = Header_Get (Header r') hd) ->
  serveHTTP p w r val clk = serveHTTP p w r' val clk'
  /\ how (serveHTTP (SetLifetime p d) w r val clk) = how (serveHTTP p w r val clk)
  /\ sink (serveHTTP (SetLifetime p d) w r val clk) = sink (serveHTTP p w r val clk)
  /\ after (serveHTTP (SetLifetime p d) w r val clk) = SetLifetime p d.
Proof.
  intros Hread Hm Hu Hb Hhd.
  assert (Hacc := Hhd "Accept"%string ltac:(unfold criticalHeaders; repeat constructor)).
  assert (Hauth := Hhd "Authorization"%string
                     ltac:(unfold criticalHeaders; repeat constructor)).
  unfold serveHTTP. change (read (SetLifetime p d) (bareKey val)) with (read p (bareKey val)).
  change (store (SetLifetime p d)) with (store p).
  destruct (invalidKey val); [by rewrite Hb|]. rewrite Hread.
  destruct (store p !! a) as [saved|]; [|by rewrite Hb].
  split.
  - unfold replay. cbn [firstHeaderMismatch criticalHeaders].
    by rewrite Hm, Hu, Hb, Hacc, Hauth.
  - unfold replay. cbn [firstHeaderMismatch criticalHeaders].
    repeat case_bool_decide; try done.
    destruct (io_Copy sha256_New (Body r)) as [[h rest] [e|]]; [done|].
    case_bool_decide; [done|].
    destruct (replayHeader _ w) as [[] w1]; [|done].
    by destruct (rw_Write _ _).
Qed.

Lemma replayHeader_panics (entries : list (string * list string)) w (k : string) :
  (k, []) ∈ entries -> (replayHeader entries w).1 = Panics.
Proof.
  revert w. induction entries as [|[k' vals] es IH]; intros w Hin.
  - by apply elem_of_nil in Hin.
  - cbn. destruct vals as [|v vals]; [done|].
    apply elem_of_cons in Hin as [[=]|Hin]. by apply IH.
Qed.

(** What the hit branch comes to once the four checks have passed. *)
Lemma replay_passes p w r saved :
  Method r = sr_method saved ->
  URL r = sr_url saved ->
  (forall hd, hd ∈ criticalHeaders ->
     Header_Get (sr_requestHeader saved) hd = Header_Get (Header r) hd) ->
  (io_Copy sha256_New (Body r)).2 = None ->
  Sum256 (streamBytes (Body r)) = sr_sha256 saved ->
  replay p w r saved
  = match replayHeader (map_to_list (sr_responseHeader saved)) w with
    | (Panics, w1) =>
        mkOutcome Panicked p w1 (io_Copy sha256_New (Body r)).1.2 0
    | (Returns, w1) =>
        mkOutcome (Done None) p
          (rw_Write (rw_WriteHeader w1 (sr_statusCode saved))
             (sr_responseBody saved)).1
          (io_Copy sha256_New (Body r)).1.2 0
    end.
Proof.
  intros Hm Hu Hhd Hcopy Hsum.
  unfold replay. cbn [firstHeaderMismatch criticalHeaders].
  rewrite !bool_decide_eq_false_2;
    [| intros Hne; apply Hne, Hhd; unfold criticalHeaders; repeat constructor
     | intros Hne; apply Hne, Hhd; unfold criticalHeaders; repeat constructor
     | auto | auto ].
  destruct (io_Copy sha256_New (Body r)) as [[h rest] e] eqn:Hio.
  cbn in Hcopy. subst e. pose proof (io_Copy_written _ _ _ _ _ Hio) as Hw.
  unfold hash_Sum. rewrite Hw. cbn [written sha256_New app fst snd].
  rewrite bool_decide_eq_false_2 by auto.
  destruct (replayHeader _ w) as [[] w1]; [|done]. by destruct (rw_Write _ _).
Qed.

(** X12. A stored response header without any value makes every replay
    of the entry panic, in whatever order the stored headers are
    visited: the four checks pass, then [vals[0]] is out of range. The
    [Potency] is left as it was and the handler is not run. *)
Theorem hit_panics_on_valueless_header p w r val clk (a : addr) saved (k : string) :
  validToken val ->
  read p (bareKey val) = Some a ->
  store p !! a = Some saved ->
  Method r = sr_method saved ->
  URL r = sr_url saved ->
  (forall hd, hd ∈ criticalHeaders ->
     Header_Get (sr_requestHeader saved) hd = Header_Get (Header r) hd) ->
  (io_Copy sha256_New (Body r)).2 = None ->
  Sum256 (streamBytes (Body r)) = sr_sha256 saved ->
  sr_responseHeader saved !! k = Some [] ->
  how (serveHTTP p w r val clk) = Panicked
  /\ after (serveHTTP p w r val clk) = p
  /\ handlerCalls (serveHTTP p w r val clk) = 0%nat
  /\ (forall entries,
        entries ≡ₚ map_to_list (sr_responseHeader saved) ->
        (replayHeader entries w).1 = Panics).
Proof.
  intros Hval Hread Hsaved Hm Hu Hhd Hcopy Hsum Hk.
  apply invalidKey_false in Hval.
  rewrite (serveHTTP_hit _ _ _ _ _ _ _ Hval Hread Hsaved).
  assert (Hall : forall entries,
            entries ≡ₚ map_to_list (sr_responseHeader saved) ->
            (replayHeader entries w).1 = Panics).
  { intros entries Hperm. apply (replayHeader_panics entries w k).
    rewrite Hperm. by apply elem_of_map_to_list. }
  rewrite replay_passes by done.
  specialize (Hall _ (reflexivity _)).
  destruct (replayHeader (map_to_list (sr_responseHeader saved)) w) as [[] w1];
    [done|].
  split_and!; try done.
  intros entries Hperm. apply (replayHeader_panics entries w k).
  rewrite Hperm. by apply elem_of_map_to_list.
Qed.

(** The entry a request leaves when its handler has returned, if the
    sweep has not taken it away. *)
Lemma execute_stored p w r val clk rwi' bi' (a : addr) :
  wf p ->
  validToken val ->
  read p (bareKey val) = None ->
  inProgress p !! bareKey val ≠ Some true ->
  runHandler (handler p (Method r) (URL r) (Header r))
    (newResponseWriterIntercept w) (newBodyIntercept (Body r))
  = (Returns, rwi', bi') ->
  read (after (serveHTTP p w r val clk)) (bareKey val) = Some a ->
  store (after (serveHTTP p w r val clk)) !! a
  = Some (set_added (now_write clk)
            (savedAs r (bareKey val) (captureHeaders criticalHeaders (Header r))
               rwi' bi')).
Proof.
  intros Hwf Hval Hread Hfree Hrun. apply invalidKey_false in Hval.
  rewrite serveHTTP_miss, lockKey_free by done.
  match goal with |- context [execute ?q _ _ _ _] => set (p1 := q) end.
  assert (Hwf1 : wf p1) by (destruct Hwf; by split).
  destruct (execute_returns p1 w r (bareKey val) clk rwi' bi' Hwf1 Hrun)
    as (p3 & Hsweep & _ & ->).
  unfold deferUnlock. cbn [how after unlockKey read cache store].
  apply removeExpired_loop_frame in Hsweep as (_ & _ & Hst & _ & _ & Hsub & _).
  intros Ha. apply Hsub in Ha. cbn in Ha. rewrite lookup_insert_eq in Ha.
  injection Ha as <-. rewrite Hst.
  pose proof (write_insert_lookup (now_write clk) p1
                (savedAs r (bareKey val)
                   (captureHeaders criticalHeaders (Header r)) rwi' bi')
                (length (store p1)) Hwf1) as Hobj.
  rewrite decide_True in Hobj by done. exact Hobj.
Qed.

(** X13. Idempotence. Let a first request under a key run the handler
    to its return, the handler having consumed the body, and let its
    entry still be in the map. Then a request with the same key, method,
    URL, Accept and Authorization values and body bytes is answered
    without the handler: the writer receives the first value of each
    header the handler had set, then the status code the first interceptor
    held and the bytes it had buffered; the [Potency] does not change. *)
Theorem retry_replays_response p w r val clk rwi' bi' r2 (w2 : W) clk2 (a : addr) :
  wf p ->
  validToken val ->
  read p (bareKey val) = None ->
  inProgress p !! bareKey val ≠ Some true ->
  runHandler (handler p (Method r) (URL r) (Header r))
    (newResponseWriterIntercept w) (newBodyIntercept (Body r))
  = (Returns, rwi', bi') ->
  read (after (serveHTTP p w r val clk)) (bareKey val) = Some a ->
  CanonicalMIMEHeaderKey "Accept" ≠ CanonicalMIMEHeaderKey "Authorization" ->
  Method r2 = Method r ->
  URL r2 = URL r ->
  (forall hd, hd ∈ criticalHeaders ->
     Header_Get (Header r2) hd = Header_Get (Header r) hd) ->
  (io_Copy sha256_New (Body r2)).2 = None ->
  streamBytes (Body r2) = written (bi_sha256 bi') ->
  (forall k vs, rw_Header (rwi_dest rwi') !! k = Some vs ->
     vs ≠ [] /\ CanonicalMIMEHeaderKey k = k) ->
  exists w1,
    serveHTTP (after (serveHTTP p w r val clk)) w2 r2 val clk2
    = mkOutcome (Done None) (after (serveHTTP p w r val clk))
        (rw_Write (rw_WriteHeader w1 (rwi_statusCode rwi')) (rwi_buf rwi')).1
        (io_Copy sha256_New (Body r2)).1.2 0
    /\ forall k,
         rw_Header w1 !! k
         = match rw_Header (rwi_dest rwi') !! k with
           | Some (v :: _) => Some [v]
           | _ => rw_Header w2 !! k
           end.
Proof.
  intros Hwf Hval Hread Hfree Hrun Hkept Hcanon Hm Hu Hhd Hcopy Hbytes Hstored.
  pose proof (execute_stored p w r val clk rwi' bi' a Hwf Hval Hread Hfree Hrun Hkept)
    as Hobj.
  apply invalidKey_false in Hval.
  rewrite (serveHTTP_hit _ _ _ _ _ _ _ Hval Hkept Hobj).
  rewrite replay_passes; cbn [set_added savedAs sr_method sr_url sr_requestHeader
                                sr_sha256 sr_responseHeader sr_statusCode
                                sr_responseBody]; try done.
  - destruct (replayHeader_lookup (rwi_Header rwi')
                (map_to_list (rwi_Header rwi')) w2) as (w1 & -> & Hw1);
      [done|exact Hstored|].
    by exists w1.
  - intros hd Hin. rewrite captureHeaders_Get by done. symmetry. by apply Hhd.
  - unfold hash_Sum. by rewrite Hbytes.
Qed.

(** X14. The stored digest is that of the bytes the handler read, the
    digest of a retry that of its whole body. When the two differ, as
    they do when the handler returned before the end of the body, the
    retry of the very same request is refused with BodyMismatch. *)
Theorem retry_after_partial_read_mismatch p w r val clk rwi' bi' r2 (w2 : W) clk2
    (a : addr) :
  wf p ->
  validToken val ->
  read p (bareKey val) = None ->
  inProgress p !! bareKey val ≠ Some true ->
  runHandler (handler p (Method r) (URL r) (Header r))
    (newResponseWriterIntercept w) (newBodyIntercept (Body r))
  = (Returns, rwi', bi') ->
  read (after (serveHTTP p w r val clk)) (bareKey val) = Some a ->
  CanonicalMIMEHeaderKey "Accept" ≠ CanonicalMIMEHeaderKey "Authorization" ->
  Method r2 = Method r ->
  URL r2 = URL r ->
  (forall hd, hd ∈ criticalHeaders ->
     Header_Get (Header r2) hd = Header_Get (Header r) hd) ->
  (io_Copy sha256_New (Body r2)).2 = None ->
  Sum256 (streamBytes (Body r2)) ≠ Sum256 (written (bi_sha256 bi')) ->
  serveHTTP (after (serveHTTP p w r val clk)) w2 r2 val clk2
  = mkOutcome
      (Done (Some (BodyMismatch (Sum256 (streamBytes (Body r2)))
                     (Sum256 (written (bi_sha256 bi'))))))
      (after (serveHTTP p w r val clk)) w2 (io_Copy sha256_New (Body r2)).1.2 0.
Proof.
  intros Hwf Hval Hread Hfree Hrun Hkept Hcanon Hm Hu Hhd Hcopy Hdiff.
  pose proof (execute_stored p w r val clk rwi' bi' a Hwf Hval Hread Hfree Hrun Hkept)
    as Hobj.
  apply invalidKey_false in Hval.
  rewrite (serveHTTP_hit _ _ _ _ _ _ _ Hval Hkept Hobj).
  unfold replay.
  cbn [firstHeaderMismatch criticalHeaders set_added savedAs sr_method sr_url
         sr_requestHeader sr_sha256].
  rewrite !bool_decide_eq_false_2;
    [| intros Hne; apply Hne; rewrite captureHeaders_Get;
       [symmetry; apply Hhd| |]; try done; unfold criticalHeaders; repeat constructor
     | intros Hne; apply Hne; rewrite captureHeaders_Get;
       [symmetry; apply Hhd| |]; try done; unfold criticalHeaders; repeat constructor
     | auto | auto ].
  destruct (io_Copy sha256_New (Body r2)) as [[h rest] e] eqn:Hio.
  cbn in Hcopy. subst e. pose proof (io_Copy_written _ _ _ _ _ Hio) as Hw.
  unfold hash_Sum in *. rewrite Hw. cbn [written sha256_New app fst snd].
  by rewrite bool_decide_eq_true_2.
Qed.

(** X16. Expiry. When a request inserts an entry and finds the oldest
    object of the chain older than the lifetime, the key of that object
    is not in the map afterwards, whichever key it is. *)
Theorem insert_sweeps_expired_oldest p w r val clk rwi' bi' (a : addr)
    (it : savedResult) :
  wf p ->
  validToken val ->
  read p (bareKey val) = None ->
  inProgress p !! bareKey val ≠ Some true ->
  runHandler (handler p (Method r) (URL r) (Header r))
    (newResponseWriterIntercept w) (newBodyIntercept (Body r))
  = (Returns, rwi', bi') ->
  cacheOldest p = Some a ->
  store p !! a = Some it ->
  (sr_added it < cutoffAt (now_sweep clk) (lifetime p))%Z ->
  read (after (serveHTTP p w r val clk)) (sr_key it) = None.
Proof.
  intros Hwf Hval Hread Hfree Hrun Hold Hit Hexp. apply invalidKey_false in Hval.
  rewrite serveHTTP_miss, lockKey_free by done.
  match goal with |- context [execute ?q _ _ _ _] => set (p1 := q) end.
  assert (Hwf1 : wf p1) by (destruct Hwf; by split).
  destruct (execute_returns p1 w r (bareKey val) clk rwi' bi' Hwf1 Hrun)
    as (p3 & Hsweep & _ & ->).
  unfold deferUnlock. cbn [how after unlockKey read cache].
  set (obj := savedAs r (bareKey val) (captureHeaders criticalHeaders (Header r))
                rwi' bi') in *.
  pose proof (write_insert_lookup (now_write clk) p1 obj a Hwf1) as Hlook.
  rewrite decide_False in Hlook by (apply lookup_lt_Some in Hit; cbn; lia).
  change (store p1 !! a) with (store p !! a) in Hlook. rewrite Hit in Hlook.
  set (p2 := write_insert (now_write clk) (alloc p1 obj).1 (length (store p1)) obj)
    in *.
  assert (Hold2 : cacheOldest p2 = Some a) by (cbn; by rewrite Hold).
  assert (Hrun2 : exists it2,
            store p2 !! a = Some it2
            /\ sr_added it2 = sr_added it /\ sr_key it2 = sr_key it).
  { rewrite Hlook. case_decide; cbn; eexists; (split; [reflexivity|]);
      by destruct it. }
  destruct Hrun2 as (it2 & Hit2 & Hadded & Hkey). rewrite <- Hkey.
  unfold removeExpired in Hsweep. rewrite Hold2 in Hsweep.
  refine (removeExpired_loop_deletes_run _ _ a a _ _ p2 p3 it2 eq_refl Hsweep Hit2).
  eapply run_here; [exact Hit2|]. rewrite Hadded. exact Hexp.
Qed.

End MoreDispatcherProperties.

(** ** Writing, then reading *)

(** X15. An insert that finds nothing expired removes nothing: when the
    oldest object of the chain, or the object itself if the chain is
    empty, is not older than the cutoff, [write] on a newly allocated
    object ends with the object in the map under its key, [read] of any
    other key being what it was. When instead the chain is empty and the
    object itself is older than the cutoff, as with a lifetime below
    zero, the key is not in the map after [write]. *)
Theorem write_then_read (p : Potency) (obj : savedResult) (now nowS : Z) :
  wf p ->
  sr_newer obj = None ->
  ((cacheOldest p = None /\ (cutoffAt nowS (lifetime p) <= now)%Z)
   \/ (exists a it,
         cacheOldest p = Some a /\ store p !! a = Some it
         /\ (cutoffAt nowS (lifetime p) <= sr_added it)%Z) ->
   exists p',
     write now nowS (alloc p obj).1 (alloc p obj).2 = Some p'
     /\ read p' (sr_key obj) = Some (length (store p))
     /\ forall k, k ≠ sr_key obj -> read p' k = read p k)
  /\ (cacheOldest p = None -> (now < cutoffAt nowS (lifetime p))%Z ->
      exists p',
        write now nowS (alloc p obj).1 (alloc p obj).2 = Some p'
        /\ read p' (sr_key obj) = None).
Proof.
  intros Hwf Hnone.
  destruct (write_total now nowS p obj Hwf Hnone) as (p' & Hwrite & Hsweep & _).
  pose proof (write_insert_lookup now p obj (length (store p)) Hwf) as Hnew.
  rewrite decide_True in Hnew by done.
  pose proof (write_insert_length now p obj) as Hlen.
  set (p2 := write_insert now (alloc p obj).1 (length (store p)) obj) in *.
  assert (Hcache : cache p2 = <[sr_key obj := length (store p)]> (cache p)) by done.
  assert (Hlife : lifetime p2 = lifetime p) by done.
  assert (Hold2 : cacheOldest p2
                  = match cacheOldest p with
                    | None => Some (length (store p))
                    | Some o => Some o
                    end) by done.
  assert (Hlook : forall a it,
            store p !! a = Some it ->
            exists it2, store p2 !! a = Some it2 /\ sr_added it2 = sr_added it).
  { intros a it Hit. subst p2. rewrite write_insert_lookup by done.
    rewrite decide_False by (apply lookup_lt_Some in Hit; lia).
    rewrite Hit. case_decide; cbn; eexists; (split; [reflexivity|]);
      by destruct it. }
  clearbody p2. unfold removeExpired in Hsweep.
  rewrite Hlen, Hlife, Hold2 in Hsweep. split.
  - intros Hfresh. exists p'. split; [done|].
    assert (Hsame : p' = p2).
    { destruct Hfresh as [[Hold Hcut]|(a & it & Hold & Hit & Hcut)];
        rewrite Hold in Hsweep; cbn [removeExpired_loop] in Hsweep.
      - rewrite Hnew in Hsweep. cbn [set_added sr_added] in Hsweep.
        rewrite (proj2 (Z.ltb_ge now (cutoffAt nowS (lifetime p))) Hcut) in Hsweep.
        by injection Hsweep as <-.
      - destruct (Hlook _ _ Hit) as (it2 & Hit2 & Hadded).
        rewrite Hit2, Hadded in Hsweep.
        rewrite (proj2 (Z.ltb_ge (sr_added it) (cutoffAt nowS (lifetime p))) Hcut)
          in Hsweep.
        by injection Hsweep as <-. }
    subst p'. unfold read. rewrite Hcache.
    split; [by rewrite lookup_insert_eq|].
    intros k Hk. by rewrite lookup_insert_ne.
  - intros Hold Hcut. exists p'. split; [done|]. rewrite Hold in Hsweep.
    refine (removeExpired_loop_deletes_run _ _ (length (store p))
              (length (store p)) _ _ p2 p' (set_added now obj) eq_refl Hsweep Hnew).
    eapply run_here; [exact Hnew|]. exact Hcut.
Qed.

(** ** Key syntax, the other way *)

Lemma string_last_split (s : string) (c : ascii) :
  String.get (String.length s - 1) s = Some c ->
  s = substring 0 (String.length s - 1) s +:+ String c EmptyString.
Proof.
  induction s as [|a s IH]; [done|].
  destruct s as [|b s].
  - cbn. by intros [= ->].
  - intros Hget.
    assert (Hlast : String.get (String.length (String b s) - 1) (String b s)
                    = Some c).
    { cbn in Hget |- *. by rewrite Nat.sub_0_r in *. }
    specialize (IH Hlast).
    replace (String.length (String a (String b s)) - 1)%nat
      with (Datatypes.S (String.length (String b s) - 1)) by (cbn; lia).
    change (substring 0 (Datatypes.S ?m) (String a ?x))
      with (String a (substring 0 m x)).
    change (String a ?x +:+ ?y) with (String a (x +:+ y)).
    by rewrite <- IH.
Qed.

(** X17. A value of valid syntax is its bare key between two quote
    marks; hence two different valid values never name the same key. *)
Theorem valid_token_is_quoted_key (val val' : string) :
  validToken val ->
  val = quoted (bareKey val)
  /\ (validToken val' -> bareKey val = bareKey val' -> val = val').
Proof.
  assert (Hquoted : forall v, validToken v -> v = quoted (bareKey v)).
  { intros v (Hlen & Hfirst & Hlast).
    destruct v as [|q s]; [done|]. cbn in Hfirst. injection Hfirst as ->.
    destruct s as [|b s]; [cbn in Hlen; lia|].
    assert (Hlast' : String.get (String.length (String b s) - 1) (String b s)
                     = Some dquote).
    { cbn in Hlast |- *. by rewrite Nat.sub_0_r in *. }
    apply string_last_split in Hlast'.
    unfold quoted, bareKey, dquoteStr.
    replace (String.length (String dquote (String b s)) - 2)%nat
      with (String.length (String b s) - 1)%nat by (cbn; lia).
    assert (Hsub : forall n x, substring 1 n (String dquote x) = substring 0 n x)
      by (intros n x; by destruct n).
    rewrite Hsub.
    change (String dquote EmptyString +:+ ?x) with (String dquote x).
    by rewrite <- Hlast'. }
  intros Hval. split; [by apply Hquoted|].
  intros Hval' Hkey. rewrite (Hquoted val Hval), (Hquoted val' Hval'). by rewrite Hkey.
Qed.

(** ** Requests that overlap *)

Section Overlap.
Context `{!GoLibrary} {W : Type} `{!ResponseWriter W} `{!ErrorWriter W}.

Implicit Types (p : Potency) (w : W) (r : Request) (val key : string)
  (clk : clock) (f g : flight (W:=W)) (s : Potency * list (flight (W:=W))).

Lemma turn_single p f :
  turn 0 (p, [f]) = ((advance p f).1, [(advance p f).2]).
Proof. unfold turn. cbn. by destruct (advance p f). Qed.

Local Ltac turns :=
  repeat (rewrite ?turn_single; try unfold moveTo;
          cbn [advance fl_at fl_val fl_r fl_w fl_clk fl_unread fl_calls
               how after sink unread handlerCalls fst snd]).

(** A request that no other request overlaps goes from point to point
    and ends as [serveHTTP] says. *)
Lemma flight_alone_is_serveHTTP p w r val clk :
  schedule [0; 0; 0; 0; 0]%nat (p, [newFlight w r val clk])
  = (after (serveHTTP p w r val clk),
     [mkFlight (Ended (how (serveHTTP p w r val clk)))
        (sink (serveHTTP p w r val clk)) r val clk
        (unread (serveHTTP p w r val clk))
        (handlerCalls (serveHTTP p w r val clk))]).
Proof.
  unfold schedule, serveHTTP, newFlight. cbn [fold_left].
  rewrite (turn_single p).
  unfold moveTo; cbn [advance fl_at fl_val fl_r fl_w fl_clk fl_unread fl_calls].
  destruct (invalidKey val) eqn:Hval; [by turns|].
  destruct (read p (bareKey val)) as [a|] eqn:Hread.
  { destruct (store p !! a) as [saved|] eqn:Hst; [|by turns].
    turns. by rewrite (proj1 (replay_frame p w r saved)). }
  cbn [fst snd]. rewrite turn_single.
  unfold moveTo; cbn [advance fl_at fl_val fl_r fl_w fl_clk fl_unread fl_calls].
  destruct (lockKey p (bareKey val)) as [p1 [e|]] eqn:Hlock; [by turns|].
  cbn [fst snd]. rewrite turn_single. unfold execute.
  unfold moveTo; cbn [advance fl_at fl_val fl_r fl_w fl_clk fl_unread fl_calls].
  destruct (runHandler _ _ _) as [[[] rwi'] bi'] eqn:Hrun; [|by turns].
  cbn [fst snd]. rewrite turn_single.
  unfold moveTo; cbn [advance fl_at fl_val fl_r fl_w fl_clk fl_unread fl_calls].
  destruct (alloc p1 _) as [p2 sr] eqn:Halloc.
  destruct (write _ _ p2 sr) as [p3|] eqn:Hwrite; by turns.
Qed.

Lemma write_inProgress now nowS p (sr : addr) p' :
  write now nowS p sr = Some p' -> inProgress p' = inProgress p.
Proof.
  unfold write. destruct (store p !! sr) as [obj|]; [|done].
  unfold removeExpired. intros Hsweep.
  by apply removeExpired_loop_frame in Hsweep as (_ & _ & _ & _ & -> & _).
Qed.

(** What a turn does to the in-progress set and to the key its request
    holds: nothing, or the request takes a key that was free, or it
    releases the key it held. *)
Lemma advance_inProgress p f :
  (inProgress (advance p f).1 = inProgress p
   /\ forall key, holdsKey (advance p f).2 key -> holdsKey f key)
  \/ (exists key,
        inProgress p !! key ≠ Some true
        /\ inProgress (advance p f).1 = <[key := true]> (inProgress p)
        /\ (forall f0, holdsKey f0 key -> f0 ≠ f)
        /\ forall k, holdsKey (advance p f).2 k -> k = key)
  \/ (exists key,
        holdsKey f key
        /\ inProgress (advance p f).1 = delete key (inProgress p)
        /\ forall k, ~ holdsKey (advance p f).2 k).
Proof.
  unfold advance. destruct (fl_at f) as [|key|key|key save|key c|c] eqn:Hat.
  - left. destruct (invalidKey (fl_val f)); [by split|].
    destruct (read p _) as [a|]; [|by split].
    destruct (store p !! a) as [saved|]; by split.
  - unfold lockKey. destruct (inProgress p !! key) as [[]|] eqn:Hkey; cbn.
    + left. by split.
    + right. left. exists key. split_and!; [by rewrite Hkey|done| |].
      * intros f0 Hhold ->. unfold holdsKey in Hhold. by rewrite Hat in Hhold.
      * by intros k <-.
    + right. left. exists key. split_and!; [by rewrite Hkey|done| |].
      * intros f0 Hhold ->. unfold holdsKey in Hhold. by rewrite Hat in Hhold.
      * by intros k <-.
  - left. destruct (runHandler _ _ _) as [[[] rwi'] bi']; cbn;
      (split; [done|]); intros k; unfold holdsKey; cbn; by rewrite Hat.
  - left. destruct (alloc p save) as [p1 sr] eqn:Halloc.
    assert (Hin : inProgress p1 = inProgress p) by (by injection Halloc as <- <-).
    destruct (write _ _ p1 sr) as [p2|] eqn:Hwrite; cbn.
    + apply write_inProgress in Hwrite. split; [congruence|].
      intros k. unfold holdsKey. cbn. by rewrite Hat.
    + by split.
  - right. right. exists key. unfold holdsKey, moveTo. rewrite Hat. cbn.
    split_and!; [done|done|by intros k []].
  - left. by split.
Qed.

Lemma exclusive_turn (i : nat) s : exclusive s -> exclusive (turn i s).
Proof.
  destruct s as [p fs]. intros [Hheld Hone]. unfold turn. cbn [fst snd] in *.
  destruct (fs !! i) as [f|] eqn:Hi; [|by split].
  destruct (advance p f) as [p' f'] eqn:Hadv.
  pose proof (advance_inProgress p f) as Hcases. rewrite Hadv in Hcases.
  cbn [fst snd] in *.
  assert (Hlook : forall j g, <[i := f']> fs !! j = Some g ->
            (j = i /\ g = f') \/ (j ≠ i /\ fs !! j = Some g)).
  { intros j g Hj.
    apply list_lookup_insert_Some in Hj as [(<- & <- & _)|[Hne Hj]];
      [by left|right; by split]. }
  unfold exclusive. cbn [fst snd].
  destruct Hcases as [[Hsame Hsub]|[(key & Hfree & Hins & Hnot & Honly)
                                   |(key & Hhold & Hdel & Hnone)]].
  - assert (Hback : forall j g k, <[i := f']> fs !! j = Some g -> holdsKey g k ->
              exists g0, fs !! j = Some g0 /\ holdsKey g0 k).
    { intros j g k Hj Hk. destruct (Hlook _ _ Hj) as [[-> ->]|[_ Hj']]; eauto. }
    split.
    + intros j g k Hj Hk. destruct (Hback _ _ _ Hj Hk) as (g0 & Hg0 & Hk0).
      rewrite Hsame. by apply (Hheld j g0).
    + intros j1 j2 g1 g2 k Hj1 Hj2 Hk1 Hk2.
      destruct (Hback _ _ _ Hj1 Hk1) as (h1 & Hh1 & Hkh1).
      destruct (Hback _ _ _ Hj2 Hk2) as (h2 & Hh2 & Hkh2).
      by apply (Hone j1 j2 h1 h2 k).
  - assert (Hothers : forall j g, j ≠ i -> fs !! j = Some g -> ~ holdsKey g key).
    { intros j g _ Hj Hk. apply Hfree. by apply (Hheld j g). }
    split.
    + intros j g k Hj Hk. rewrite Hins.
      destruct (Hlook _ _ Hj) as [[-> ->]|[Hne Hj']].
      * rewrite (Honly _ Hk). by rewrite lookup_insert_eq.
      * destruct (decide (k = key)) as [->|Hk'];
          [by rewrite lookup_insert_eq|].
        rewrite lookup_insert_ne by done. by apply (Hheld j g).
    + intros j1 j2 g1 g2 k Hj1 Hj2 Hk1 Hk2.
      destruct (Hlook _ _ Hj1) as [[-> ->]|[Hne1 Hj1']];
        destruct (Hlook _ _ Hj2) as [[-> ->]|[Hne2 Hj2']]; [done| | |].
      * rewrite (Honly _ Hk1) in Hk2. by destruct (Hothers _ _ Hne2 Hj2').
      * rewrite (Honly _ Hk2) in Hk1. by destruct (Hothers _ _ Hne1 Hj1').
      * by apply (Hone j1 j2 g1 g2 k).
  - split.
    + intros j g k Hj Hk. rewrite Hdel.
      destruct (Hlook _ _ Hj) as [[-> ->]|[Hne Hj']]; [by destruct (Hnone k)|].
      destruct (decide (k = key)) as [->|Hk'].
      * by destruct (Hne (Hone j i g f key Hj' Hi Hk Hhold)).
      * rewrite lookup_delete_ne by done. by apply (Hheld j g).
    + intros j1 j2 g1 g2 k Hj1 Hj2 Hk1 Hk2.
      destruct (Hlook _ _ Hj1) as [[-> ->]|[Hne1 Hj1']]; [by destruct (Hnone k)|].
      destruct (Hlook _ _ Hj2) as [[-> ->]|[Hne2 Hj2']]; [by destruct (Hnone k)|].
      by apply (Hone j1 j2 g1 g2 k).
Qed.

Lemma inFlight_schedule (order : list nat) s :
  inFlight s -> inFlight (schedule order s).
Proof.
  revert s. induction order as [|i order IH]; intros s Hs; [done|].
  unfold schedule. cbn [fold_left]. apply IH. apply (inFlight_next s); [done|].
  apply il_turn.
Qed.

(** X19. Whatever way the requests interleave, no two requests in flight
    hold the same key (are past [lockKey] and before the end of the
    deferred [unlockKey] with it), and a key that is held is in the
    in-progress set: per key, one handler call at a time. *)
Theorem key_held_by_one_request s :
  inFlight s -> exclusive s.
Proof.
  induction 1 as [h|s s' _ IH Hnext].
  - split; cbn; intros *; by rewrite lookup_nil.
  - destruct Hnext as [p fs w r val clk|s i|p fs d].
    + destruct IH as [Hheld Hone]. cbn [fst snd] in *.
      assert (Hback : forall j g k,
                (fs ++ [newFlight w r val clk]) !! j = Some g -> holdsKey g k ->
                fs !! j = Some g).
      { intros j g k Hj Hk. apply lookup_app_Some in Hj as [Hj|[_ Hj]]; [done|].
        apply list_lookup_singleton_Some in Hj as [_ <-]. done. }
      split; cbn [fst snd].
      * intros j g k Hj Hk. apply (Hheld j g); eauto.
      * intros j1 j2 g1 g2 k Hj1 Hj2 Hk1 Hk2. apply (Hone j1 j2 g1 g2 k); eauto.
    + by apply exclusive_turn.
    + done.
Qed.

(** The cache invariants hold at every point of every request. *)
Lemma advance_sound p f :
  wf p -> keyed p -> chained p -> pending f ->
  wf (advance p f).1 /\ keyed (advance p f).1 /\ chained (advance p f).1
  /\ pending (advance p f).2.
Proof.
  intros Hwf Hkeyed Hchained Hpending. unfold advance, pending in *.
  destruct (fl_at f) as [|key|key|key save|key c|c] eqn:Hat.
  - destruct (invalidKey (fl_val f)); [by split_and!|].
    destruct (read p _) as [a|]; [|by split_and!].
    destruct (store p !! a) as [saved|]; [|by split_and!].
    cbn [fst snd fl_at]. split_and!; [done..|]. apply replay_frame.
  - unfold lockKey. destruct (default false (inProgress p !! key)); cbn;
      (split_and!; [by destruct Hwf|done..]).
  - destruct (runHandler _ _ _) as [[[] rwi'] bi']; cbn; by split_and!.
  - destruct Hpending as [_ Hnone].
    destruct (write_total (now_write (fl_clk f)) (now_sweep (fl_clk f)) p save
                Hwf Hnone) as (p' & Hwrite & Hsweep & Hwf').
    unfold alloc in Hwrite |- *. cbn [fst snd] in Hwrite. rewrite Hwrite.
    cbn [fst snd moveTo fl_at].
    split_and!; [done| | |done].
    + by apply (keyed_write p save (now_write (fl_clk f)) (now_sweep (fl_clk f)) p').
    + by apply (chained_write p save (now_write (fl_clk f)) (now_sweep (fl_clk f))
                  p').
  - cbn. split_and!; [by apply wf_unlockKey|done..].
  - cbn. rewrite Hat. by split_and!.
Qed.

(** X20. Whatever way the requests interleave, the cache is sound at
    every point: every pointer is the address of an object, every entry
    of the map is on an object that carries its key, the chain holds all
    objects in the order of their insertion, and no request is caught in
    the sweep: [write] always returns. *)
Theorem overlap_keeps_cache_sound s :
  inFlight s ->
  wf s.1 /\ keyed s.1 /\ chained s.1
  /\ (forall i f, s.2 !! i = Some f -> fl_at f ≠ Ended Hung).
Proof.
  intros Hs.
  assert (Hinv : wf s.1 /\ keyed s.1 /\ chained s.1
                 /\ forall i f, s.2 !! i = Some f -> pending f).
  { induction Hs as [h|s s' _ (Hwf & Hkeyed & Hchained & Hpend) Hnext].
    - split_and!; [apply wf_NewPotency| |by split_and!|].
      + intros k a Hk. cbn in Hk. by rewrite lookup_empty in Hk.
      + intros i f Hi. cbn in Hi. by rewrite lookup_nil in Hi.
    - destruct Hnext as [p fs w r val clk|[p fs] i|p fs d]; cbn [fst snd] in *.
      + split_and!; [done..|]. intros i f Hi.
        apply lookup_app_Some in Hi as [Hi|[_ Hi]]; [by apply (Hpend i)|].
        by apply list_lookup_singleton_Some in Hi as [_ <-].
      + unfold turn. cbn [fst snd].
        destruct (fs !! i) as [f|] eqn:Hi; [|done].
        destruct (advance_sound p f Hwf Hkeyed Hchained (Hpend i f Hi))
          as (Hwf' & Hkeyed' & Hchained' & Hpend').
        destruct (advance p f) as [p' f']. cbn [fst snd] in *.
        split_and!; [done..|]. intros j g Hj.
        apply list_lookup_insert_Some in Hj as [(_ & <- & _)|[_ Hj]];
          [done|by apply (Hpend j)].
      + split_and!; [by apply wf_SetLifetime|done..]. }
  destruct Hinv as (Hwf & Hkeyed & Hchained & Hpend).
  split_and!; [done..|]. intros i f Hi Hhung.
  specialize (Hpend i f Hi). unfold pending in Hpend. by rewrite Hhung in Hpend.
Qed.

End Overlap.

(** * The properties at work on the sample requests *)

#[global] Existing Instance goLibrary.
#[global] Existing Instance recorder_ResponseWriter.
#[global] Existing Instance recorder_ErrorWriter.
Local Open Scope string_scope.

Lemma sample_token_valid : validToken (quoted "abc").
Proof. apply invalidKey_false. reflexivity. Qed.

Lemma sample_bareKey : bareKey (quoted "abc") = "abc".
Proof. reflexivity. Qed.

Lemma sample_served1_store : store (after served1) !! 0%nat = Some savedAbc.
Proof. vm_compute. reflexivity. Qed.

Lemma sample_served1_read :
  read (after served1) (bareKey (quoted "abc")) = Some 0%nat.
Proof. vm_compute. reflexivity. Qed.

Lemma sample_served1_reachable : reachable (after served1).
Proof.
  refine (reachable_step _ _ (reachable_New sampleHandler)
            (step_ServeHTTP (NewPotency sampleHandler) recorder_new
               (sampleRequest "abc" "test1") (at_hour 0) _)).
  vm_compute. discriminate.
Qed.

Lemma sample_servedAgain_step (content : string) :
  step (after served1) (after (servedAgain content)).
Proof.
  refine (step_ServeHTTP (after served1) recorder_new
            (sampleRequest "abc" content) (at_hour 1) _).
  apply ServeHTTP_step, reachable_wf, sample_served1_reachable.
Qed.

Lemma sample_servedB_step : step (after served1) (after servedB).
Proof.
  refine (step_ServeHTTP (after served1) recorder_new
            (sampleRequest "b" "test1") (at_hour 1) _).
  apply ServeHTTP_step, reachable_wf, sample_served1_reachable.
Qed.

Lemma sample_overlapping_inFlight : inFlight overlapping.
Proof.
  pose proof (inFlight_New (W:=recorder) sampleHandler) as H0.
  pose proof (inFlight_next _ _ H0
                (il_arrive (NewPotency sampleHandler) [] recorder_new
                   (sampleRequest "abc" "test1") (quoted "abc") (at_hour 0))) as H1.
  exact (inFlight_next _ _ H1
           (il_arrive (NewPotency sampleHandler) _ recorder_new
              (sampleRequest "abc" "test2") (quoted "abc") (at_hour 0))).
Qed.

Lemma sample_stored_headers (k : string) (vs : list string) :
  sr_responseHeader savedAbc !! k = Some vs ->
  vs ≠ [] /\ CanonicalMIMEHeaderKey k = k.
Proof.
  cbn [sr_responseHeader savedAbc]. rewrite !lookup_insert.
  repeat case_decide; subst; try (intros [= <-]; split; [discriminate|reflexivity]).
  by rewrite lookup_empty.
Qed.



(** A key sent without its quotes. *)
Lemma invalid_key_iff_bad_syntax_witness :
  "abc" ≠ ""
  /\ ~ validToken "abc"
  /\ exists v,
       how (serveHTTP (NewPotency sampleHandler) recorder_new
              (sampleRequest "abc" "test1") "abc" (at_hour 0))
       = Done (Some (InvalidKey v)).
Proof.
  assert (Hbad : ~ validToken "abc") by (apply invalidKey_true; reflexivity).
  split; [discriminate|]. split; [exact Hbad|].
  exact (proj1 (proj2 (proj1 (invalid_key_iff_bad_syntax (NewPotency sampleHandler)
                                recorder_new (sampleRequest "abc" "test1") "abc"
                                (at_hour 0) ltac:(discriminate))) Hbad)).
Defined.

(** A request whose Idempotency-Key header is the empty string: the
    recorder of the caller has received what the sample handler writes. *)
Lemma empty_key_forwarded_witness :
  let r := mkRequest "POST" "/orders" {[ "Idempotency-Key" := [""] ]}
             [(list_byte_of_string "test1", None)] in
  Header r !! CanonicalMIMEHeaderKey "Idempotency-Key" = Some [""]
  /\ runHandler (sampleHandler (Method r) (URL r) (Header r)) recorder_new (Body r)
     = (Returns,
        mkRecorder sampleHeaders
          [GotWriteHeader 201; GotWrite (list_byte_of_string "test1")],
        [])
  /\ ServeHTTP (NewPotency sampleHandler) recorder_new r (at_hour 0)
     = mkOutcome (Done None) (NewPotency sampleHandler)
         (mkRecorder sampleHeaders
            [GotWriteHeader 201; GotWrite (list_byte_of_string "test1")])
         [] 1.
Proof.
  intros r.
  assert (Hpresent :
    Header r !! CanonicalMIMEHeaderKey "Idempotency-Key" = Some [""])
    by (vm_compute; reflexivity).
  assert (Hsample :
    runHandler (sampleHandler (Method r) (URL r) (Header r)) recorder_new (Body r)
    = (Returns,
       mkRecorder sampleHeaders
         [GotWriteHeader 201; GotWrite (list_byte_of_string "test1")],
       [])) by (vm_compute; reflexivity).
  split; [exact Hpresent|]. split; [exact Hsample|].
  pose proof (empty_key_forwarded (NewPotency sampleHandler) recorder_new r
                (at_hour 0) [] Hpresent) as ((e & w' & b' & Hrun & Hout) & _).
  cbn [handler NewPotency] in Hrun. rewrite Hsample in Hrun.
  injection Hrun as <- <- <-. exact Hout.
Defined.

(** The same key with another body: the digest check fails. *)
Lemma hit_checks_in_order_witness :
  let r := sampleRequest "abc" "test2" in
  validToken (quoted "abc")
  /\ read (after served1) (bareKey (quoted "abc")) = Some 0%nat
  /\ store (after served1) !! 0%nat = Some savedAbc
  /\ serveHTTP (after served1) recorder_new r (quoted "abc") (at_hour 1)
     = mkOutcome
         (Done (Some (BodyMismatch (Sum256 (streamBytes (Body r)))
                        (sr_sha256 savedAbc))))
         (after served1) recorder_new [] 0.
Proof.
  intros r.
  split; [exact sample_token_valid|]. split; [exact sample_served1_read|].
  split; [exact sample_served1_store|].
  pose proof (hit_checks_in_order (after served1) recorder_new r (quoted "abc")
                (at_hour 1) 0%nat savedAbc sample_token_valid
                sample_served1_read sample_served1_store) as Hchecks.
  cbv zeta in Hchecks. destruct Hchecks as (_ & _ & _ & _ & Hbody & _).
  refine (proj2 (Hbody eq_refl eq_refl (fun Hd => Hd _) (fun Hd => Hd _)
                   (mkHash (list_byte_of_string "test2")) [] _) _).
  - vm_compute. reflexivity.
  - vm_compute. reflexivity.
  - vm_compute. reflexivity.
  - vm_compute. discriminate.
Defined.

(** C3 as stated fails: the handler stored two values under Set-Cookie,
    the replay of the same request hands the caller only the first. *)
Lemma replay_drops_header_values :
  store (after served1) !! 0%nat = Some savedAbc
  /\ read (after served1) "abc" = Some 0%nat
  /\ how (servedAgain "test1") = Done None
  /\ handlerCalls (servedAgain "test1") = 0%nat
  /\ sr_responseHeader savedAbc !! "Set-Cookie" = Some ["a=1"; "b=2"]
  /\ rw_Header (sink (servedAgain "test1")) !! "Set-Cookie" = Some ["a=1"]
  /\ rw_Header (sink (servedAgain "test1")) !! "Set-Cookie"
     ≠ sr_responseHeader savedAbc !! "Set-Cookie".
Proof.
  split_and!; try (vm_compute; reflexivity). vm_compute. discriminate.
Qed.

(** The replay of the request that was stored. *)
Lemma hit_replays_first_values_witness :
  let r := sampleRequest "abc" "test1" in
  validToken (quoted "abc")
  /\ read (after served1) (bareKey (quoted "abc")) = Some 0%nat
  /\ store (after served1) !! 0%nat = Some savedAbc
  /\ Sum256 (streamBytes (Body r)) = sr_sha256 savedAbc
  /\ exists w1,
       serveHTTP (after served1) recorder_new r (quoted "abc") (at_hour 1)
       = mkOutcome (Done None) (after served1)
           (rw_Write (rw_WriteHeader w1 (sr_statusCode savedAbc))
              (sr_responseBody savedAbc)).1
           [] 0
       /\ rw_Header w1 !! "Set-Cookie" = Some ["a=1"].
Proof.
  intros r.
  assert (Hsum : Sum256 (streamBytes (Body r)) = sr_sha256 savedAbc)
    by (vm_compute; reflexivity).
  assert (Hhd : forall hd, hd ∈ criticalHeaders ->
            Header_Get (sr_requestHeader savedAbc) hd = Header_Get (Header r) hd).
  { intros hd Hin. unfold criticalHeaders in Hin.
    apply elem_of_cons in Hin as [->|Hin]; [vm_compute; reflexivity|].
    apply list_elem_of_singleton in Hin as ->. vm_compute. reflexivity. }
  split; [exact sample_token_valid|]. split; [exact sample_served1_read|].
  split; [exact sample_served1_store|]. split; [exact Hsum|].
  destruct (hit_replays_first_values (after served1) recorder_new r (quoted "abc")
              (at_hour 1) 0%nat savedAbc (mkHash (list_byte_of_string "test1")) []
              sample_token_valid sample_served1_read sample_served1_store
              eq_refl eq_refl Hhd ltac:(vm_compute; reflexivity) Hsum
              sample_stored_headers) as [(w1 & Hout & _ & Hheader) _].
  exists w1. split; [exact Hout|]. exact (Hheader "Set-Cookie").
Defined.

(** The first request for a key, with the key in progress and without. *)
Lemma miss_conflict_or_locked_witness :
  let r := sampleRequest "abc" "test1" in
  wf (NewPotency sampleHandler)
  /\ wf busyAbc
  /\ validToken (quoted "abc")
  /\ read (NewPotency sampleHandler) (bareKey (quoted "abc")) = None
  /\ inProgress busyAbc !! bareKey (quoted "abc") = Some true
  /\ inProgress (NewPotency sampleHandler) !! bareKey (quoted "abc") ≠ Some true
  /\ serveHTTP busyAbc recorder_new r (quoted "abc") (at_hour 0)
     = mkOutcome (Done (Some (Conflict (bareKey (quoted "abc"))))) busyAbc
         recorder_new (Body r) 0
  /\ inProgress
       (after (serveHTTP (NewPotency sampleHandler) recorder_new r (quoted "abc")
                 (at_hour 0)))
     !! bareKey (quoted "abc") = None.
Proof.
  intros r.
  assert (Hwf : wf (NewPotency sampleHandler)) by apply wf_NewPotency.
  assert (Hbusy : wf busyAbc) by (split; cbn; intros *; done).
  assert (Hheld : inProgress busyAbc !! bareKey (quoted "abc") = Some true)
    by (vm_compute; reflexivity).
  assert (Hfree : inProgress (NewPotency sampleHandler) !! bareKey (quoted "abc")
                  ≠ Some true) by (vm_compute; discriminate).
  split; [exact Hwf|]. split; [exact Hbusy|].
  split; [exact sample_token_valid|]. split; [reflexivity|].
  split; [exact Hheld|]. split; [exact Hfree|]. split.
  - pose proof (miss_conflict_or_locked busyAbc recorder_new r (quoted "abc")
                  (at_hour 0) Hbusy sample_token_valid eq_refl) as Hmiss.
    cbv zeta in Hmiss. exact (proj1 Hmiss Hheld).
  - pose proof (miss_conflict_or_locked (NewPotency sampleHandler) recorder_new r
                  (quoted "abc") (at_hour 0) Hwf sample_token_valid eq_refl)
      as Hmiss.
    cbv zeta in Hmiss.
    destruct (proj2 Hmiss Hfree) as (p1 & _ & _ & _ & _ & _ & Hout & _).
    exact Hout.
Defined.


(** A request under a new key, after the first sample request: the entry
    of abc stays on its object, which now has a chain link, and the entry
    of b is on a new object. *)
Lemma sequential_calls_never_overwrite_witness :
  reachable (after served1)
  /\ step (after served1) (after servedB)
  /\ cache (after served1) !! "abc" = Some 0%nat
  /\ store (after served1) !! 0%nat = Some savedAbc
  /\ cache (after servedB) !! "b" = Some 1%nat
  /\ ((cache (after servedB) !! "abc" = Some 0%nat
       /\ exists obj',
            store (after servedB) !! 0%nat = Some obj' /\ sameResult obj' savedAbc)
      \/ cache (after servedB) !! "abc" = None)
  /\ (cache (after served1) !! "b" = Some 1%nat
      \/ (cache (after served1) !! "b" = None
          /\ store (after served1) !! 1%nat = None)).
Proof.
  assert (Hnew : cache (after servedB) !! "b" = Some 1%nat)
    by (vm_compute; reflexivity).
  split; [exact sample_served1_reachable|]. split; [exact sample_servedB_step|].
  split; [exact sample_served1_read|]. split; [exact sample_served1_store|].
  split; [exact Hnew|].
  destruct (sequential_calls_never_overwrite (after served1) (after servedB)
              sample_served1_reachable sample_servedB_step) as (Hkeep & Hfresh & _).
  split.
  - exact (Hkeep "abc" 0%nat savedAbc sample_served1_read sample_served1_store).
  - exact (Hfresh "b" 1%nat Hnew).
Defined.

(** C8 fails on the code when two requests overlap. Two requests with the
    key abc and the bodies test1 and test2 are in flight on a new
    [Potency]. Both read the map before either has inserted, and both
    miss. The first takes the key, runs the handler, inserts its result
    and releases the key: abc is now in the map, on the object of address
    0. The second, which is past its read, takes the key, free again,
    without Conflict; the handler runs a second time, and [write] puts the
    result for test2 under abc: the entry of a key that was present is
    overwritten by another result, and two objects with the key abc are
    in the chain. *)
Theorem overlapping_requests_overwrite_entry :
  let s1 := schedule [0; 1; 0; 0; 0; 0]%nat overlapping in
  let s2 := schedule [1; 1; 1; 1]%nat s1 in
  inFlight s2
  /\ (fl_at <$> s1.2 !! 0%nat = Some (Ended (Done None))
      /\ fl_at <$> s1.2 !! 1%nat = Some (AtLockKey "abc")
      /\ inProgress s1.1 !! "abc" = None
      /\ cache s1.1 !! "abc" = Some 0%nat
      /\ store s1.1 !! 0%nat = Some savedAbc)
  /\ (fl_at <$> s2.2 !! 1%nat = Some (Ended (Done None))
      /\ fl_calls <$> s2.2 !! 0%nat = Some 1%nat
      /\ fl_calls <$> s2.2 !! 1%nat = Some 1%nat
      /\ cache s2.1 !! "abc" = Some 1%nat
      /\ sr_key <$> store s2.1 !! 1%nat = Some "abc"
      /\ sr_responseBody <$> store s2.1 !! 1%nat
         = Some (list_byte_of_string "test2")
      /\ sr_sha256 <$> store s2.1 !! 1%nat
         = Some (Sum256 (list_byte_of_string "test2"))
      /\ sr_key <$> store s2.1 !! 0%nat = Some "abc"
      /\ sr_newer <$> store s2.1 !! 0%nat = Some (Some 1%nat)
      /\ NumCached s2.1 = 1%nat).
Proof.
  intros s1 s2. split; [|split].
  - apply inFlight_schedule, inFlight_schedule. exact sample_overlapping_inFlight.
  - split_and!; vm_compute; reflexivity.
  - split_and!; vm_compute; reflexivity.
Qed.

(** C1 fails on the code. With a lifetime of 6 hours, the keys a, b and a
    are inserted at hours 0, 7 and 8. The sweep of the second insert
    removes the expired entry of a from the map, but leaves [cacheOldest]
    on that object (address 0) and not on the first object that has not
    expired (address 1). The sweep of the third insert therefore starts
    at the object of address 0 again and deletes its key, a, from the
    map: the entry just inserted (address 2, added at hour 8, cutoff at
    hour 2) is gone although it has not expired. *)
Theorem expiry_sweep_removes_fresh_entry :
  (how aged2 = Done None
   /\ cache (after aged2) !! "a" = None
   /\ cache (after aged2) !! "b" = Some 1%nat
   /\ sr_added <$> store (after aged2) !! 0%nat = Some 0%Z
   /\ sr_added <$> store (after aged2) !! 1%nat = Some (7 * hour)%Z
   /\ cutoffAt (7 * hour) (lifetime (after aged2)) = (1 * hour)%Z
   /\ cacheOldest (after aged2) = Some 0%nat)
  /\ (how aged3 = Done None
      /\ handlerCalls aged3 = 1%nat
      /\ sr_key <$> store (after aged3) !! 2%nat = Some "a"
      /\ sr_added <$> store (after aged3) !! 2%nat = Some (8 * hour)%Z
      /\ cutoffAt (8 * hour) (lifetime (after aged3)) = (2 * hour)%Z
      /\ cache (after aged3) !! "a" = None
      /\ NumCached (after aged3) = 1%nat).
Proof. split; split_and!; vm_compute; reflexivity. Qed.

(** * The further properties at work on the sample requests *)

Lemma sample_new_free :
  inProgress (NewPotency sampleHandler) !! bareKey (quoted "abc") ≠ Some true.
Proof. vm_compute. discriminate. Qed.

Lemma sample_run (w : recorder) :
  w = recorder_new ->
  runHandler (sampleHandler "POST" "/orders" {[ "Idempotency-Key" := [quoted "abc"] ]})
    (newResponseWriterIntercept w)
    (newBodyIntercept [(list_byte_of_string "test1", None)])
  = (Returns, sampleRwi "test1", sampleBi "test1" []).
Proof. intros ->. vm_compute. reflexivity. Qed.

Lemma sample_critical_same (r r' : Request) :
  Header_Get (Header r) "Accept" = Header_Get (Header r') "Accept" ->
  Header_Get (Header r) "Authorization" = Header_Get (Header r') "Authorization" ->
  forall hd, hd ∈ criticalHeaders ->
    Header_Get (Header r) hd = Header_Get (Header r') hd.
Proof.
  intros Hacc Hauth hd Hin. unfold criticalHeaders in Hin.
  apply elem_of_cons in Hin as [->|Hin]; [exact Hacc|].
  apply list_elem_of_singleton in Hin as ->. exact Hauth.
Qed.

Lemma sample_canonical_differ :
  CanonicalMIMEHeaderKey "Accept" ≠ CanonicalMIMEHeaderKey "Authorization".
Proof. vm_compute. discriminate. Qed.

Lemma sample_aged1_wf : wf (after aged1).
Proof. apply ServeHTTP_step, wf_NewPotency. Qed.

Lemma sample_assertsNothing (method url : string) (header : HttpHeader) :
  assertsNothing (sampleHandler method url header).
Proof. cbn. done. Qed.

(** The handler that streams when it can, called for a request without
    key and for a first request with a key: behind the interceptor its
    writer cannot flush. *)
Lemma sample_flushing_handler_refuses :
  let r0 := mkRequest "GET" "/events" ∅ [] in
  let r1 := mkRequest "GET" "/events" {[ "Idempotency-Key" := [quoted "abc"] ]} [] in
  rec_calls (sink (ServeHTTP (NewPotency flushingHandler) recorder_new r0 (at_hour 0)))
  = [GotWrite (list_byte_of_string "event")]
  /\ rec_calls (sink (ServeHTTP (NewPotency flushingHandler) recorder_new r1
                        (at_hour 0)))
     = [GotWriteHeader 500; GotWrite (list_byte_of_string "streaming unsupported")].
Proof. split; vm_compute; reflexivity. Qed.

(** The sample handler on the interceptors and on the recorder itself. *)
Lemma interception_transparent_to_calls_witness :
  let h := sampleHandler "POST" "/orders" ∅ in
  let b : body := [(list_byte_of_string "hello world", None)] in
  ReaderContract body
  /\ assertsNothing h
  /\ exists rwi' bi',
       runHandler h (newResponseWriterIntercept recorder_new) (newBodyIntercept b)
       = ((runHandler h recorder_new b).1.1, rwi', bi')
       /\ rwi_dest rwi' = (runHandler h recorder_new b).1.2
       /\ bi_source bi' = (runHandler h recorder_new b).2.
Proof.
  intros h b. split; [exact body_ReaderContract|].
  split; [exact (sample_assertsNothing "POST" "/orders" ∅)|].
  exact (proj1 (interception_transparent_to_calls h recorder_new b
                  body_ReaderContract (sample_assertsNothing "POST" "/orders" ∅))).
Defined.

(** The sweep at hour 7 on the state the request of hour 0 leaves. *)
Lemma sweep_deletes_expired_run_witness :
  exists p',
    removeExpired (7 * hour) (after aged1) = Some p'
    /\ expiredKey (cutoffAt (7 * hour) (lifetime (after aged1))) (after aged1) "a"
    /\ cache p' !! "a" = None.
Proof.
  destruct (removeExpired_total (7 * hour) (after aged1) sample_aged1_wf)
    as (p' & Hsweep & _).
  assert (Hstore : store (after aged1) !! 0%nat = Some savedA)
    by (vm_compute; reflexivity).
  assert (Hexp : expiredKey (cutoffAt (7 * hour) (lifetime (after aged1)))
                   (after aged1) "a").
  { exists 0%nat, 0%nat, savedA. split; [vm_compute; reflexivity|].
    split; [|split; [exact Hstore|reflexivity]].
    apply (run_here _ _ 0%nat savedA Hstore). vm_compute. reflexivity. }
  exists p'. split; [exact Hsweep|]. split; [exact Hexp|].
  exact (proj1 (sweep_deletes_expired_run (7 * hour) (after aged1) p' "a" Hsweep)
           Hexp).
Defined.

(** The entry the first sample request leaves. *)
Lemma read_returns_own_key_witness :
  reachable (after served1)
  /\ read (after served1) (bareKey (quoted "abc")) = Some 0%nat
  /\ exists obj,
       store (after served1) !! 0%nat = Some obj
       /\ sr_key obj = bareKey (quoted "abc").
Proof.
  split; [exact sample_served1_reachable|]. split; [exact sample_served1_read|].
  exact (proj1 (read_returns_own_key (after served1) (bareKey (quoted "abc")) 0%nat
                  sample_served1_reachable sample_served1_read)).
Defined.

Lemma chain_in_insertion_order_witness :
  reachable (after served1)
  /\ cacheNewest (after served1)
     = match length (store (after served1)) with
       | O => None
       | Datatypes.S n => Some n
       end.
Proof.
  split; [exact sample_served1_reachable|].
  exact (proj1 (proj2 (chain_in_insertion_order (after served1)
                         sample_served1_reachable))).
Defined.

Lemma NumCached_grows_by_one_witness :
  reachable (after served1)
  /\ step (after served1) (after (servedAgain "test2"))
  /\ (NumCached (after (servedAgain "test2"))
      <= Datatypes.S (NumCached (after served1)))%nat.
Proof.
  split; [exact sample_served1_reachable|].
  split; [exact (sample_servedAgain_step "test2")|].
  exact (proj1 (NumCached_grows_by_one (after served1)
                  (after (servedAgain "test2")) sample_served1_reachable
                  (sample_servedAgain_step "test2"))).
Defined.

(** A key sent without its quote marks. *)
Lemma error_leaves_no_trace_witness :
  let p := NewPotency sampleHandler in
  how (ServeHTTP p recorder_new unquotedRequest (at_hour 0))
  = Done (Some (InvalidKey "abc"))
  /\ after (ServeHTTP p recorder_new unquotedRequest (at_hour 0)) = p
  /\ sink (ServeHTTP p recorder_new unquotedRequest (at_hour 0))
     = WriteError recorder_new (InvalidKey "abc").
Proof.
  intros p.
  assert (Hhow : how (ServeHTTP p recorder_new unquotedRequest (at_hour 0))
                 = Done (Some (InvalidKey "abc"))) by (vm_compute; reflexivity).
  split; [exact Hhow|].
  destruct (error_leaves_no_trace p recorder_new unquotedRequest (at_hour 0)
              (InvalidKey "abc") Hhow) as (Hafter & Hsink & _).
  split; [exact Hafter|exact Hsink].
Defined.

Lemma miss_serves_like_direct_call_witness :
  let p := NewPotency sampleHandler in
  let r := sampleRequest "abc" "test1" in
  wf p
  /\ validToken (quoted "abc")
  /\ read p (bareKey (quoted "abc")) = None
  /\ inProgress p !! bareKey (quoted "abc") ≠ Some true
  /\ assertsNothing (handler p (Method r) (URL r) (Header r))
  /\ exists e w' b',
       runHandler (handler p (Method r) (URL r) (Header r)) recorder_new (Body r)
       = (e, w', b')
       /\ sink (serveHTTP p recorder_new r (quoted "abc") (at_hour 0)) = w'.
Proof.
  intros p r.
  assert (Hwf : wf p) by apply wf_NewPotency.
  split; [exact Hwf|]. split; [exact sample_token_valid|].
  split; [reflexivity|]. split; [exact sample_new_free|].
  split; [exact (sample_assertsNothing (Method r) (URL r) (Header r))|].
  destruct (miss_serves_like_direct_call p recorder_new r (quoted "abc")
              (at_hour 0) Hwf sample_token_valid eq_refl sample_new_free
              (sample_assertsNothing (Method r) (URL r) (Header r)))
    as (e & w' & b' & Hrun & _ & Hsink & _).
  exists e, w', b'. split; [exact Hrun|exact Hsink].
Defined.

(** The stored request sent again with one more header, at another time. *)
Lemma hit_depends_on_fingerprint_only_witness :
  let r := sampleRequest "abc" "test1" in
  read (after served1) (bareKey (quoted "abc")) = Some 0%nat
  /\ Header r !! "X-Test" = None
  /\ Header otherHeaderRequest !! "X-Test" = Some ["foo"]
  /\ serveHTTP (after served1) recorder_new r (quoted "abc") (at_hour 1)
     = serveHTTP (after served1) recorder_new otherHeaderRequest (quoted "abc")
         (at_hour 100).
Proof.
  intros r.
  assert (Hnone : Header r !! "X-Test" = None) by (vm_compute; reflexivity).
  assert (Hfoo : Header otherHeaderRequest !! "X-Test" = Some ["foo"])
    by (vm_compute; reflexivity).
  split; [exact sample_served1_read|]. split; [exact Hnone|].
  split; [exact Hfoo|].
  exact (proj1 (hit_depends_on_fingerprint_only (after served1) recorder_new r
                  otherHeaderRequest (quoted "abc") (at_hour 1) (at_hour 100)
                  0%nat 0%Z sample_served1_read eq_refl eq_refl eq_refl
                  (sample_critical_same r otherHeaderRequest eq_refl eq_refl))).
Defined.

(** The retry of a request whose handler had set a header to no value. *)
Lemma hit_panics_on_valueless_header_witness :
  let r := sampleRequest "abc" "" in
  how servedValueless = Done None
  /\ read (after servedValueless) (bareKey (quoted "abc")) = Some 0%nat
  /\ store (after servedValueless) !! 0%nat = Some savedValueless
  /\ how (serveHTTP (after servedValueless) recorder_new r (quoted "abc")
            (at_hour 1)) = Panicked.
Proof.
  intros r.
  assert (Hhow : how servedValueless = Done None) by (vm_compute; reflexivity).
  assert (Hread : read (after servedValueless) (bareKey (quoted "abc"))
                  = Some 0%nat) by (vm_compute; reflexivity).
  assert (Hstore : store (after servedValueless) !! 0%nat = Some savedValueless)
    by (vm_compute; reflexivity).
  assert (Hsum : Sum256 (streamBytes (Body r)) = sr_sha256 savedValueless)
    by (vm_compute; reflexivity).
  assert (Hcopy : (io_Copy sha256_New (Body r)).2 = None)
    by (vm_compute; reflexivity).
  assert (Hhd : forall hd, hd ∈ criticalHeaders ->
            Header_Get (sr_requestHeader savedValueless) hd
            = Header_Get (Header r) hd).
  { intros hd Hin. unfold criticalHeaders in Hin.
    apply elem_of_cons in Hin as [->|Hin]; [vm_compute; reflexivity|].
    apply list_elem_of_singleton in Hin as ->. vm_compute. reflexivity. }
  assert (Hempty : sr_responseHeader savedValueless !! "X-Empty" = Some [])
    by (vm_compute; reflexivity).
  split; [exact Hhow|]. split; [exact Hread|]. split; [exact Hstore|].
  exact (proj1 (hit_panics_on_valueless_header (after servedValueless)
                  recorder_new r (quoted "abc") (at_hour 1) 0%nat savedValueless
                  "X-Empty" sample_token_valid Hread Hstore eq_refl eq_refl Hhd
                  Hcopy Hsum Hempty)).
Defined.

(** The sample request, then the same request one hour later. *)
Lemma retry_replays_response_witness :
  let p := NewPotency sampleHandler in
  let r := sampleRequest "abc" "test1" in
  let o1 := serveHTTP p recorder_new r (quoted "abc") (at_hour 0) in
  wf p
  /\ read p (bareKey (quoted "abc")) = None
  /\ runHandler (handler p (Method r) (URL r) (Header r))
       (newResponseWriterIntercept recorder_new) (newBodyIntercept (Body r))
     = (Returns, sampleRwi "test1", sampleBi "test1" [])
  /\ read (after o1) (bareKey (quoted "abc")) = Some 0%nat
  /\ exists w1,
       serveHTTP (after o1) recorder_new r (quoted "abc") (at_hour 1)
       = mkOutcome (Done None) (after o1)
           (rw_Write (rw_WriteHeader w1 (rwi_statusCode (sampleRwi "test1")))
              (rwi_buf (sampleRwi "test1"))).1
           (io_Copy sha256_New (Body r)).1.2 0
       /\ rw_Header w1 !! "Set-Cookie" = Some ["a=1"].
Proof.
  intros p r o1.
  assert (Hwf : wf p) by apply wf_NewPotency.
  assert (Hrun : runHandler (handler p (Method r) (URL r) (Header r))
                   (newResponseWriterIntercept recorder_new)
                   (newBodyIntercept (Body r))
                 = (Returns, sampleRwi "test1", sampleBi "test1" []))
    by exact (sample_run recorder_new eq_refl).
  assert (Hread : read (after o1) (bareKey (quoted "abc")) = Some 0%nat)
    by (vm_compute; reflexivity).
  assert (Hcopy : (io_Copy sha256_New (Body r)).2 = None)
    by (vm_compute; reflexivity).
  assert (Hbytes : streamBytes (Body r) = written (bi_sha256 (sampleBi "test1" [])))
    by (vm_compute; reflexivity).
  split; [exact Hwf|]. split; [reflexivity|]. split; [exact Hrun|].
  split; [exact Hread|].
  destruct (retry_replays_response p recorder_new r (quoted "abc") (at_hour 0)
              (sampleRwi "test1") (sampleBi "test1" []) r recorder_new (at_hour 1)
              0%nat Hwf sample_token_valid eq_refl sample_new_free Hrun Hread
              sample_canonical_differ eq_refl eq_refl (fun hd _ => eq_refl)
              Hcopy Hbytes sample_stored_headers) as (w1 & Hout & Hheader).
  exists w1. split; [exact Hout|]. exact (Hheader "Set-Cookie").
Defined.

(** A body of eleven bytes of which the sample handler reads eight: the
    retry of the same request is refused. *)
Lemma retry_after_partial_read_mismatch_witness :
  let p := NewPotency sampleHandler in
  let r := sampleRequest "abc" "hello world" in
  let left : body := [(list_byte_of_string "rld", None)] in
  wf p
  /\ runHandler (handler p (Method r) (URL r) (Header r))
       (newResponseWriterIntercept recorder_new) (newBodyIntercept (Body r))
     = (Returns, sampleRwi "hello wo", sampleBi "hello wo" left)
  /\ read (after servedLong) (bareKey (quoted "abc")) = Some 0%nat
  /\ Sum256 (streamBytes (Body r))
     ≠ Sum256 (written (bi_sha256 (sampleBi "hello wo" left)))
  /\ serveHTTP (after servedLong) recorder_new r (quoted "abc") (at_hour 1)
     = mkOutcome
         (Done (Some (BodyMismatch (Sum256 (streamBytes (Body r)))
                        (Sum256 (written (bi_sha256 (sampleBi "hello wo" left)))))))
         (after servedLong) recorder_new (io_Copy sha256_New (Body r)).1.2 0.
Proof.
  intros p r left.
  assert (Hwf : wf p) by apply wf_NewPotency.
  assert (Hrun : runHandler (handler p (Method r) (URL r) (Header r))
                   (newResponseWriterIntercept recorder_new)
                   (newBodyIntercept (Body r))
                 = (Returns, sampleRwi "hello wo", sampleBi "hello wo" left))
    by (vm_compute; reflexivity).
  assert (Hread : read (after servedLong) (bareKey (quoted "abc")) = Some 0%nat)
    by (vm_compute; reflexivity).
  assert (Hcopy : (io_Copy sha256_New (Body r)).2 = None)
    by (vm_compute; reflexivity).
  assert (Hsum : Sum256 (streamBytes (Body r))
                 ≠ Sum256 (written (bi_sha256 (sampleBi "hello wo" left))))
    by (vm_compute; discriminate).
  split; [exact Hwf|]. split; [exact Hrun|]. split; [exact Hread|].
  split; [exact Hsum|].
  exact (retry_after_partial_read_mismatch p recorder_new r (quoted "abc")
           (at_hour 0) (sampleRwi "hello wo") (sampleBi "hello wo" left) r
           recorder_new (at_hour 1) 0%nat Hwf sample_token_valid eq_refl
           sample_new_free Hrun Hread sample_canonical_differ eq_refl eq_refl
           (fun hd _ => eq_refl) Hcopy Hsum).
Defined.

(** The first insert into a new [Potency], at time 0. *)
Lemma write_then_read_witness :
  let p := NewPotency sampleHandler in
  wf p
  /\ sr_newer savedAbc = None
  /\ cacheOldest p = None
  /\ (cutoffAt 0 (lifetime p) <= 0)%Z
  /\ exists p',
       write 0 0 (alloc p savedAbc).1 (alloc p savedAbc).2 = Some p'
       /\ read p' (sr_key savedAbc) = Some (length (store p)).
Proof.
  intros p.
  assert (Hwf : wf p) by apply wf_NewPotency.
  assert (Hcut : (cutoffAt 0 (lifetime p) <= 0)%Z)
    by (vm_compute; discriminate).
  split; [exact Hwf|]. split; [reflexivity|]. split; [reflexivity|].
  split; [exact Hcut|].
  destruct (proj1 (write_then_read p savedAbc 0 0 Hwf eq_refl)
              (or_introl (conj eq_refl Hcut))) as (p' & Hwrite & Hread & _).
  exists p'. split; [exact Hwrite|exact Hread].
Defined.

(** The request of hour 7 with the key b, on the state the request of
    hour 0 with the key a leaves: the key a is gone. *)
Lemma insert_sweeps_expired_oldest_witness :
  let p := after aged1 in
  let r := sampleRequest "b" "test1" in
  wf p
  /\ validToken (quoted "b")
  /\ read p (bareKey (quoted "b")) = None
  /\ inProgress p !! bareKey (quoted "b") ≠ Some true
  /\ cacheOldest p = Some 0%nat
  /\ store p !! 0%nat = Some savedA
  /\ (sr_added savedA < cutoffAt (now_sweep (at_hour 7)) (lifetime p))%Z
  /\ read (after (serveHTTP p recorder_new r (quoted "b") (at_hour 7)))
       (sr_key savedA) = None.
Proof.
  intros p r.
  assert (Hvalid : validToken (quoted "b"))
    by (apply invalidKey_false; reflexivity).
  assert (Hmiss : read p (bareKey (quoted "b")) = None)
    by (vm_compute; reflexivity).
  assert (Hfree : inProgress p !! bareKey (quoted "b") ≠ Some true)
    by (vm_compute; discriminate).
  assert (Hrun : runHandler (handler p (Method r) (URL r) (Header r))
                   (newResponseWriterIntercept recorder_new)
                   (newBodyIntercept (Body r))
                 = (Returns, sampleRwi "test1", sampleBi "test1" []))
    by (vm_compute; reflexivity).
  assert (Hold : cacheOldest p = Some 0%nat) by (vm_compute; reflexivity).
  assert (Hstore : store p !! 0%nat = Some savedA) by (vm_compute; reflexivity).
  assert (Hexp : (sr_added savedA < cutoffAt (now_sweep (at_hour 7)) (lifetime p))%Z)
    by (vm_compute; reflexivity).
  split; [exact sample_aged1_wf|]. split; [exact Hvalid|].
  split; [exact Hmiss|]. split; [exact Hfree|]. split; [exact Hold|].
  split; [exact Hstore|]. split; [exact Hexp|].
  exact (insert_sweeps_expired_oldest p recorder_new r (quoted "b") (at_hour 7)
           (sampleRwi "test1") (sampleBi "test1" []) 0%nat savedA
           sample_aged1_wf Hvalid Hmiss Hfree Hrun Hold Hstore Hexp).
Defined.

Lemma valid_token_is_quoted_key_witness :
  validToken (quoted "abc")
  /\ quoted "abc" = quoted (bareKey (quoted "abc")).
Proof.
  split; [exact sample_token_valid|].
  exact (proj1 (valid_token_is_quoted_key (quoted "abc") (quoted "abc")
                  sample_token_valid)).
Defined.

(** The key abc on a new [Potency]. *)
Lemma lockKey_unlockKey_witness :
  let p := NewPotency sampleHandler in
  inProgress p !! "abc" ≠ Some true
  /\ (lockKey p "abc").2 = None
  /\ (lockKey (lockKey p "abc").1 "abc").2 = Some ErrConflict
  /\ (lockKey (unlockKey (lockKey p "abc").1 "abc") "abc").2 = None.
Proof.
  intros p.
  assert (Hfree : inProgress p !! "abc" ≠ Some true) by (vm_compute; discriminate).
  split; [exact Hfree|].
  destruct (proj1 (lockKey_unlockKey p "abc") Hfree) as (Htake & Hagain & Hback & _).
  split; [exact Htake|]. split; [exact Hagain|exact Hback].
Defined.

(** The two overlapping sample requests, when the first is in its
    handler and the second has read the map. *)
Lemma key_held_by_one_request_witness :
  inFlight (schedule [0; 1; 0; 0]%nat overlapping)
  /\ exclusive (schedule [0; 1; 0; 0]%nat overlapping).
Proof.
  assert (Hin : inFlight (schedule [0; 1; 0; 0]%nat overlapping))
    by exact (inFlight_schedule [0; 1; 0; 0]%nat overlapping
                sample_overlapping_inFlight).
  split; [exact Hin|].
  exact (key_held_by_one_request (schedule [0; 1; 0; 0]%nat overlapping) Hin).
Defined.

(** The two overlapping sample requests at their end. *)
Lemma overlap_keeps_cache_sound_witness :
  let s := schedule [0; 1; 0; 0; 0; 0; 1; 1; 1; 1]%nat overlapping in
  inFlight s /\ wf s.1 /\ keyed s.1 /\ chained s.1.
Proof.
  intros s.
  assert (Hin : inFlight s)
    by exact (inFlight_schedule [0; 1; 0; 0; 0; 0; 1; 1; 1; 1]%nat overlapping
                sample_overlapping_inFlight).
  split; [exact Hin|].
  destruct (overlap_keeps_cache_sound s Hin) as (Hwf & Hkeyed & Hchained & _).
  split; [exact Hwf|]. split; [exact Hkeyed|exact Hchained].
Defined.
